(** * mir.dlsite: the cached fetcher, the page fetcher and the dlorg command

    A shallow embedding of [mir/dlsite/api.py] and [mir/dlsite/cmd/dlorg.py].
    Python exceptions are values of [exn]; code that raises or mutates runs
    in a small state-and-error monad [M St A].  The persistent shelf is a
    [gmap] from identifiers to work records, stored in a file of a small
    file-system model. *)

From stdpp Require Import gmap strings list fin_maps.
From Stdlib Require Import ZArith.

Open Scope string_scope.
Open Scope list_scope.

(** ** Python exceptions *)

(** [errno] values of the [OSError] subclasses the code can meet:
    [ENOENT] is [FileNotFoundError], [EEXIST] is [FileExistsError],
    [ENOTDIR] is [NotADirectoryError], [EISDIR] is [IsADirectoryError]. *)
Inductive oserr := ENOENT | EEXIST | ENOTDIR | EISDIR | EACCES.

Inductive exn :=
| KeyError (key : string)
| TypeError (msg : string)
| AttributeError (msg : string)
| IndexError (msg : string)
| ValueError (msg : string)
| OSError (errno : oserr)
| HTTPError (code : Z)
| URLError (reason : string)
| Exception (descr : string).

#[global] Instance oserr_eq_dec : EqDecision oserr.
Proof. solve_decision. Defined.

#[global] Instance exn_eq_dec : EqDecision exn.
Proof. solve_decision. Defined.

(** Code without state returns an exception or a value; [x ← c; k] goes
    on with the value and stops at the exception. *)
#[global] Instance exn_ret : MRet (sum exn) := λ A, inr.
#[global] Instance exn_bind : MBind (sum exn) := λ A B k c,
  match c with
  | inl e => inl e
  | inr a => k a
  end.

(** [try: c  except e: h e], without state. *)
Definition except {A} (c : exn + A) (h : exn -> exn + A) : exn + A :=
  match c with
  | inl e => h e
  | inr a => inr a
  end.

(** The state-and-error monad: a computation takes the state and gives an
    exception or a value, and the state it leaves behind.  A raised
    exception keeps the state changes made before it, as in Python. *)
Module PyM.

Definition M (St A : Type) : Type := St -> (exn + A) * St.

Definition ret {St A} (a : A) : M St A := fun s => (inr a, s).

Definition raise {St A} (e : exn) : M St A := fun s => (inl e, s).

Definition bind {St A B} (c : M St A) (k : A -> M St B) : M St B :=
  fun s =>
    match c s with
    | (inl e, s') => (inl e, s')
    | (inr a, s') => k a s'
    end.

(** [try: c  except e: h e] *)
Definition try_except {St A} (c : M St A) (h : exn -> M St A) : M St A :=
  fun s =>
    match c s with
    | (inl e, s') => h e s'
    | (inr a, s') => (inr a, s')
    end.

(** [for x in xs: body x], left to right, left by the first exception. *)
Fixpoint for_each {St A} (xs : list A) (body : A -> M St unit) : M St unit :=
  match xs with
  | [] => ret tt
  | x :: xs' => bind (body x) (fun _ => for_each xs' body)
  end.

Definition lift {St A} (r : exn + A) : M St A := fun s => (r, s).

End PyM.
Import PyM.

Notation "'do' x <- c ; k" := (bind c (fun x => k))
  (at level 10, x name, c at level 100, k at level 200).
Notation "'run' c ; k" := (bind c (fun _ => k))
  (at level 10, c at level 100, k at level 200).

(** ** Paths and the file system *)

(** A [pathlib.Path] is the list of its [parts]; absolute paths are taken
    from the root, which is the empty list. *)
Abbreviation path := (list string).

(** [Path.parent]; the root is its own parent. *)
Definition parent (p : path) : path := removelast p.

Section FileSystem.

Context {V : Type}.

(** What a path names: a directory, a shelf data base holding a
    dictionary, or any other file. *)
Inductive node := Dir | DbFile (db : gmap string V) | OtherFile.

Abbreviation FS := (gmap path node).

Definition lookup_node (fs : FS) (p : path) : option node :=
  match p with
  | [] => Some Dir
  | _ => fs !! p
  end.

Definition is_dir (fs : FS) (p : path) : bool :=
  match lookup_node fs p with
  | Some Dir => true
  | _ => false
  end.

(** Path resolution of [cur / rest] as a chain of directories: the first
    component that is missing gives [ENOENT], the first that is not a
    directory [ENOTDIR]. *)
Fixpoint walk (fs : FS) (cur : path) (rest : list string) : option oserr :=
  match lookup_node fs cur with
  | Some Dir =>
      match rest with
      | [] => None
      | c :: rest' => walk fs (cur ++ [c]) rest'
      end
  | Some _ => Some ENOTDIR
  | None => Some ENOENT
  end.

(** [os.mkdir(p)] *)
Definition os_mkdir (p : path) : M FS unit := fun fs =>
  match walk fs [] (parent p) with
  | Some e => (inl (OSError e), fs)
  | None =>
      match lookup_node fs p with
      | Some _ => (inl (OSError EEXIST), fs)
      | None => (inr tt, <[p := Dir]> fs)
      end
  end.

(** The [except OSError] clause of [Path.mkdir]: the error is dropped
    when [exist_ok] holds and the path is a directory. *)
Definition mkdir_exists (p : path) (exist_ok : bool) (e : exn) : M FS unit :=
  fun fs => if exist_ok && is_dir fs p then (inr tt, fs) else (inl e, fs).

(** [Path.mkdir(parents=False, exist_ok=exist_ok)]: a missing parent is
    raised as it is. *)
Definition mkdir_plain (p : path) (exist_ok : bool) : M FS unit :=
  try_except (os_mkdir p)
    (fun e =>
       match e with
       | OSError ENOENT => raise e
       | _ => mkdir_exists p exist_ok e
       end).

(** [Path.mkdir(parents=True, exist_ok=exist_ok)] on the path whose parts
    reversed are [rparts]: on [FileNotFoundError] the parent is made
    first (with [parents=True, exist_ok=True]) and the directory itself
    then with [parents=False]; the root is its own parent and the error
    is raised again there. *)
Fixpoint mkdir_parents_rev (rparts : list string) (exist_ok : bool) : M FS unit :=
  try_except (os_mkdir (rev rparts))
    (fun e =>
       match e with
       | OSError ENOENT =>
           match rparts with
           | [] => raise e
           | _ :: rparent =>
               run mkdir_parents_rev rparent true;
               mkdir_plain (rev rparts) exist_ok
           end
       | _ => mkdir_exists (rev rparts) exist_ok e
       end).

Definition mkdir_parents (p : path) (exist_ok : bool) : M FS unit :=
  mkdir_parents_rev (rev p) exist_ok.

(** Every directory on the way to [p], and [p] itself, is there. *)
Definition dirs_to (fs : FS) (p : path) : Prop :=
  ∀ q, q `prefix_of` p → lookup_node fs q = Some Dir.

(** No file stands where a directory on the way to [p], or [p] itself,
    should be. *)
Definition clear_to (fs : FS) (p : path) : Prop :=
  ∀ q, q `prefix_of` p → lookup_node fs q = None ∨ lookup_node fs q = Some Dir.

(** [clear_to], computed on the prefixes of [p] from the shortest. *)
Definition clear_tob (fs : FS) (p : path) : bool :=
  forallb
    (λ k, match lookup_node fs (take k p) with
          | None | Some Dir => true
          | Some _ => false
          end)
    (seq 0 (S (length p))).

(** What [mkdir] with [parents] and [exist_ok] leaves behind when it
    returns: the directories on the way are there, what was there still
    is, and nothing off the way has changed. *)
Definition made (fs fs' : FS) (p : path) : Prop :=
  dirs_to fs' p ∧ fs ⊆ fs' ∧ ∀ q, ¬ q `prefix_of` p → fs' !! q = fs !! q.

End FileSystem.

Arguments node V : clear implicits.

(** ** [CachedFetcher] *)

Section CachedFetcher.

(** [V] is the type of the work records, all of which can be pickled;
    [Env] is the state of whatever the wrapped fetcher talks to (the
    network).  The fetcher has no reference to the [CachedFetcher] that
    wraps it. *)
Context {V Env : Type}.

Abbreviation FS := (gmap path (node V)).

(** A [shelve.Shelf]: open on a file, with the dictionary it holds, or
    closed ([Shelf.close] puts a [_ClosedDict] in place of the
    dictionary, on which every access raises [ValueError]). *)
Inductive Shelf :=
| ShelfOpen (filename : path) (dict : gmap string V)
| ShelfClosed.

Record CachedFetcher := mkCachedFetcher {
  _fetcher : string -> Env -> (exn + V) * Env;
  _path : path;
  _shelf : option Shelf
}.

(** The object, the file system, the fetcher's world, and the
    identifiers the wrapped fetcher was invoked on, oldest first. *)
Record State := mkState {
  self : CachedFetcher;
  fs : FS;
  env : Env;
  fetched : list string
}.

Definition set_shelf (sh : option Shelf) (st : State) : State :=
  {| self := {| _fetcher := _fetcher (self st);
                _path := _path (self st);
                _shelf := sh |};
     fs := fs st; env := env st; fetched := fetched st |}.

Definition set_fs (fs' : FS) (st : State) : State :=
  {| self := self st; fs := fs'; env := env st; fetched := fetched st |}.

(** [CachedFetcher(path, fetcher)] *)
Definition __init__ (path : path) (fetcher : string -> Env -> (exn + V) * Env)
  : CachedFetcher :=
  {| _fetcher := fetcher; _path := path; _shelf := None |}.

(** [self._shelf[key]] *)
Definition shelf_getitem (key : string) : M State V := fun st =>
  match _shelf (self st) with
  | None => (inl (TypeError "'NoneType' object is not subscriptable"), st)
  | Some ShelfClosed => (inl (ValueError "invalid operation on closed shelf"), st)
  | Some (ShelfOpen _ d) =>
      match d !! key with
      | Some v => (inr v, st)
      | None => (inl (KeyError key), st)
      end
  end.

(** [self._shelf[key] = v] *)
Definition shelf_setitem (key : string) (v : V) : M State unit := fun st =>
  match _shelf (self st) with
  | None =>
      (inl (TypeError "'NoneType' object does not support item assignment"), st)
  | Some ShelfClosed => (inl (ValueError "invalid operation on closed shelf"), st)
  | Some (ShelfOpen f d) => (inr tt, set_shelf (Some (ShelfOpen f (<[key := v]> d))) st)
  end.

(** [self._fetcher(rjcode)], with the invocation recorded. *)
Definition call_fetcher (rjcode : string) : M State V := fun st =>
  let '(r, env') := _fetcher (self st) rjcode (env st) in
  (r, {| self := self st; fs := fs st; env := env';
         fetched := fetched st ++ [rjcode] |}).

Definition __call__ (rjcode : string) : M State V :=
  try_except (shelf_getitem rjcode)
    (fun e =>
       match e with
       | KeyError _ =>
           do work_info <- call_fetcher rjcode;
           run shelf_setitem rjcode work_info;
           ret work_info
       | TypeError _ => raise (ValueError "called unopened CachedFetcher")
       | _ => raise e
       end).

(** [shelve.open(path)]: the data base file is opened, and created
    empty when there is none; its directory must exist. *)
Definition shelve_open (p : path) : M State Shelf := fun st =>
  match walk (fs st) [] (parent p) with
  | Some e => (inl (OSError e), st)
  | None =>
      match lookup_node (fs st) p with
      | None => (inr (ShelfOpen p ∅), set_fs (<[p := DbFile ∅]> (fs st)) st)
      | Some (DbFile d) => (inr (ShelfOpen p d), st)
      | Some Dir => (inl (OSError EISDIR), st)
      | Some OtherFile => (inl (Exception "dbm.error: db type could not be determined"), st)
      end
  end.

Definition __enter__ : M State unit :=
  do sh <- (fun st => shelve_open (_path (self st)) st);
  fun st => (inr tt, set_shelf (Some sh) st).

(** [Shelf.close()]: the dictionary is written to its file; closing a
    closed shelf does nothing. *)
Definition Shelf_close (sh : Shelf) : M State unit := fun st =>
  match sh with
  | ShelfOpen f d => (inr tt, set_shelf (Some ShelfClosed) (set_fs (<[f := DbFile d]> (fs st)) st))
  | ShelfClosed => (inr tt, st)
  end.

Definition close : M State unit := fun st =>
  match _shelf (self st) with
  | None => (inl (AttributeError "'NoneType' object has no attribute 'close'"), st)
  | Some sh => Shelf_close sh st
  end.

Definition __exit__ : M State unit := close.

(** A caller that calls the fetcher on each identifier in turn and
    keeps every outcome, value or exception. *)
Fixpoint calls (rjcodes : list string) (st : State) : list (exn + V) * State :=
  match rjcodes with
  | [] => ([], st)
  | c :: rest =>
      let '(r, st1) := __call__ c st in
      let '(rs, st2) := calls rest st1 in
      (r :: rs, st2)
  end.

(** The dictionary of the shelf when it is open. *)
Definition store (st : State) : option (gmap string V) :=
  match _shelf (self st) with
  | Some (ShelfOpen _ d) => Some d
  | _ => None
  end.

(** How many times the wrapped fetcher was invoked on [rjcode]. *)
Definition fetch_count (rjcode : string) (st : State) : nat :=
  length (filter (λ c, c = rjcode) (fetched st)).

End CachedFetcher.

Arguments CachedFetcher : clear implicits.
Arguments State : clear implicits.
Arguments Shelf : clear implicits.

(** ** Fetching and parsing a work page *)

(** A response of [urlopen]: [read().decode()] gives the text of the page
    or raises. *)
Record HTTPResponse := { read_decode : exn + string }.

#[global] Instance HTTPResponse_eq_dec : EqDecision HTTPResponse.
Proof. solve_decision. Defined.

(** What [contents] of a tag holds: strings and tags. *)
Inductive PageElement (Tag : Type) :=
| NavigableString (s : string)
| Element (t : Tag).
Arguments NavigableString {Tag} s.
Arguments Element {Tag} t.

(** The part of [bs4] the module calls, on an abstract type of tags
    ([BeautifulSoup] itself is a [Tag]).  Every search gives a tag or
    [None]. *)
Class BS4 (Tag : Type) := {
  (** [BeautifulSoup(page, features)] *)
  BeautifulSoup : string -> string -> Tag;
  (** [tag.find(id=i)] *)
  find_id : Tag -> string -> option Tag;
  (** [tag.find(class=c)], the keyword passed through a dictionary *)
  find_class : Tag -> string -> option Tag;
  (** [tag.find(name, string=pattern)] *)
  find_string : Tag -> string -> (string -> bool) -> option Tag;
  (** [tag.find_next_sibling(name)] *)
  find_next_sibling : Tag -> string -> option Tag;
  (** [tag.name], which is [tag.find(name)] *)
  find_name : Tag -> string -> option Tag;
  (** [tag()], which is [tag.find_all()] *)
  find_all : Tag -> list Tag;
  (** [tag.string] *)
  tag_string : Tag -> option string;
  (** [tag.contents] *)
  contents : Tag -> list (PageElement Tag);
  (** [str.strip()] *)
  strip : string -> string
}.

(** [str(x)] of a string or [None]. *)
Definition str (x : option string) : string :=
  match x with
  | Some s => s
  | None => "None"
  end.

(** The attribute [attr] of the result of a search, or the call of a
    method of it: [None] has no attributes. *)
Definition getattr {A} (x : option A) (attr : string) : exn + A :=
  match x with
  | Some a => inr a
  | None =>
      inl (AttributeError ("'NoneType' object has no attribute '" +:+ attr +:+ "'"))
  end.

(** [l[-1]] *)
Definition getitem_last {A} (l : list A) : exn + A :=
  match last l with
  | Some x => inr x
  | None => inl (IndexError "list index out of range")
  end.

Section Api.

Context {Net Tag : Type} {bs4 : BS4 Tag}.

(** [urllib.request.urlopen], given by the network. *)
Variable urlopen : string -> Net -> (exn + HTTPResponse) * Net.

(** What a name parsed from the page can be: a string, or the result
    set of a tag that was called. *)
Inductive pyobj := PyStr (s : string) | ResultSet (tags : list Tag).

(** Modelled from the spec: [workinfo.Work] is not among the sources; a
    work has an identifier, a display name, a maker and an optional
    series, which is [None] until it is set. *)
Record Work := mkWork {
  rjcode : string;
  name : pyobj;
  maker : string;
  series : option string
}.

Definition workinfo_Work (rjcode : string) (name : pyobj) (maker : string) : Work :=
  {| rjcode := rjcode; name := name; maker := maker; series := None |}.

Definition set_series (work : Work) (s : string) : Work :=
  {| rjcode := rjcode work; name := name work; maker := maker work;
     series := Some s |}.

(** The network and the URLs requested of it, oldest first. *)
Record NetState := mkNetState { net : Net; requested : list string }.

Definition urllib_request_urlopen (url : string) : M NetState HTTPResponse :=
  fun st =>
    let '(r, net') := urlopen url (net st) in
    (r, {| net := net'; requested := requested st ++ [url] |}).

Definition _ROOT : string := "http://www.dlsite.com/maniax/".

(** The two templates, as functions of what fills their [{}]. *)
Definition _WORK_URL (x : string) : string :=
  _ROOT +:+ "work/=/product_id/" +:+ x +:+ ".html".
Definition _ANNOUNCE_URL (x : string) : string :=
  _ROOT +:+ "announce/=/product_id/" +:+ x +:+ ".html".

Definition _get_work_url (rjcode : string) : string := _WORK_URL rjcode.

Definition _get_announce_url (rjcode : string) : string := _ANNOUNCE_URL rjcode.

Definition _get_page (rjcode : string) : M NetState string :=
  do request <-
    try_except (urllib_request_urlopen (_get_work_url rjcode))
      (fun e =>
         match e with
         | HTTPError code =>
             if negb (code =? 404)%Z then raise e
             else urllib_request_urlopen (_get_announce_url rjcode)
         | _ => raise e
         end);
  lift (read_decode request).

(** [element.strip()]: of a string, the string stripped; of a tag, the
    call of its child tag [strip], [None] when there is none. *)
Definition element_strip (x : PageElement Tag) : exn + pyobj :=
  match x with
  | NavigableString s => inr (PyStr (strip s))
  | Element t =>
      match find_name t "strip" with
      | None => inl (TypeError "'NoneType' object is not callable")
      | Some f => inr (ResultSet (find_all f))
      end
  end.

Definition _get_name (soup : Tag) : exn + pyobj :=
  work_name ← getattr (find_id soup "work_name") "a";
  a ← getattr (find_name work_name "a") "contents";
  x ← getitem_last (contents a);
  element_strip x.

Definition _get_maker (soup : Tag) : exn + string :=
  work_maker ← getattr (find_id soup "work_maker") "find";
  maker_name ← getattr (find_class work_maker "maker_name") "a";
  a ← getattr (find_name maker_name "a") "string";
  mret (str (tag_string a)).

(** [re.compile('^シリーズ名')], searched in a string: the string starts
    with the word. *)
Definition _SERIES_PATTERN (s : string) : bool := String.prefix "シリーズ名" s.

Definition _get_series (soup : Tag) : exn + string :=
  except
    (work_outline ← getattr (find_id soup "work_outline") "find";
     th ← getattr (find_string work_outline "th" _SERIES_PATTERN)
            "find_next_sibling";
     td ← getattr (find_next_sibling th "td") "a";
     a ← getattr (find_name td "a") "string";
     mret (str (tag_string a)))
    (fun e =>
       match e with
       | AttributeError _ => inl (ValueError "no series")
       | _ => inl e
       end).

Definition fetch_work (rjcode : string) : M NetState Work :=
  do page <- _get_page rjcode;
  let soup := BeautifulSoup page "lxml" in
  do name <- lift (_get_name soup);
  do maker <- lift (_get_maker soup);
  let work := workinfo_Work rjcode name maker in
  match _get_series soup with
  | inl (ValueError _) => ret work
  | inl e => raise e
  | inr series => ret (set_series work series)
  end.

(** What a response gives when it is read, or the exception in its
    place. *)
Definition page_of (r : exn + HTTPResponse) : exn + string :=
  match r with
  | inl e => inl e
  | inr response => read_decode response
  end.

(** The tag that holds the name of the work, the tag that holds its
    maker, and the tag that holds its series, where the page has them. *)
Definition name_on_page (soup : Tag) : option Tag :=
  work_name ← find_id soup "work_name"; find_name work_name "a".

Definition maker_on_page (soup : Tag) : option Tag :=
  work_maker ← find_id soup "work_maker";
  maker_name ← find_class work_maker "maker_name";
  find_name maker_name "a".

Definition series_on_page (soup : Tag) : option Tag :=
  work_outline ← find_id soup "work_outline";
  th ← find_string work_outline "th" _SERIES_PATTERN;
  td ← find_next_sibling th "td";
  find_name td "a".

(** [Path.home()], given by the environment. *)
Variable home : path.

Definition _CACHE : path := home ++ [".cache"; "mir.dlsite.db"].

Definition get_fetcher : M (gmap path (node Work)) (CachedFetcher Work NetState) :=
  let path := _CACHE in
  run mkdir_parents (parent path) true;
  ret (__init__ _CACHE fetch_work).

End Api.

Arguments Work : clear implicits.
Arguments pyobj : clear implicits.
Arguments NetState : clear implicits.

(** ** The [dlorg] command *)

Section Dlorg.

(** Modelled from the spec: the module [mir.dlsite.org] is not among
    the sources.  Its file system, its renames and its four operations
    are parameters.  Finding the works and computing the renames read
    the file system and give their sequences as lists; executing a
    rename and removing the empty directories change the file system;
    each of the four may raise. *)
Context {Disk PathRename : Type}.
Variable find_works : path -> Disk -> exn + list path.
Variable calculate_path_renames : list path -> Disk -> exn + list PathRename.
Variable execute : PathRename -> path -> M Disk unit.
Variable remove_empty_dirs : path -> M Disk unit.

(** The parsed command line. *)
Record Args := mkArgs { top_dir : path; dry_run : bool; all : bool }.

(** What the command asked of [mir.dlsite.org], oldest first. *)
Inductive event :=
| Found (top : path)
| Planned (works : list path)
| Executed (r : PathRename) (top : path)
| Cleaned (top : path).

(** The file system, the calls made, and the lines printed. *)
Record World := mkWorld {
  disk : Disk;
  trace : list event;
  stdout : list string
}.

Definition log (ev : event) (w : World) : World :=
  {| disk := disk w; trace := trace w ++ [ev]; stdout := stdout w |}.

Definition reading {A} (ev : event) (f : Disk -> exn + A) : M World A :=
  fun w => (f (disk w), log ev w).

Definition changing (ev : event) (f : M Disk unit) : M World unit :=
  fun w =>
    let '(r, d) := f (disk w) in
    (r, {| disk := d; trace := trace w ++ [ev]; stdout := stdout w |}).

(** [(p for p in works if len(p.parts) == 1)] *)
Definition top_level (works : list path) : list path :=
  filter (λ p : path, length p = 1) works.

(** The calls of [mir.dlsite.org], recorded. *)
Definition org_find_works (top : path) : M World (list path) :=
  reading (Found top) (find_works top).

Definition org_calculate_path_renames (works : list path) : M World (list PathRename) :=
  reading (Planned works) (calculate_path_renames works).

Definition r_execute (top : path) (r : PathRename) : M World unit :=
  changing (Executed r top) (execute r top).

Definition org_remove_empty_dirs (top : path) : M World unit :=
  changing (Cleaned top) (remove_empty_dirs top).

(** [main], from the parsed command line on. *)
Definition main (args : Args) : M World unit :=
  do works <- org_find_works (top_dir args);
  let works := if negb (all args) then top_level works else works in
  do renames <- org_calculate_path_renames works;
  if dry_run args then
    ret tt (* the body of this branch is the expression [...] *)
  else
    run for_each renames (r_execute (top_dir args));
    org_remove_empty_dirs (top_dir args).

End Dlorg.

Arguments event : clear implicits.
Arguments World : clear implicits.

(** ** A sample world, on which the definitions run *)

Module Sample.

Fixpoint assoc {K A} `{EqDecision K} (k : K) (l : list (K * A)) : option A :=
  match l with
  | [] => None
  | (k', a) :: l' => if decide (k' = k) then Some a else assoc k l'
  end.

Fixpoint lstrip (s : string) : string :=
  match s with
  | String c s' => if Ascii.eqb c (Ascii.ascii_of_nat 32) then lstrip s' else s
  | EmptyString => s
  end.

(** Tags are numbered.  Tag 0 is the page of a released work with a
    series, tag 100 the page of an announced work without one, and any
    other page is empty. *)
Definition sample_bs4 : BS4 nat := {|
  BeautifulSoup page _ :=
    if decide (page = "released") then 0
    else if decide (page = "announced") then 100 else 200;
  find_id t i :=
    assoc (t, i)
      [((0, "work_name"), 1); ((0, "work_maker"), 3); ((0, "work_outline"), 6);
       ((100, "work_name"), 101); ((100, "work_maker"), 103);
       ((100, "work_outline"), 106)];
  find_class t c := assoc (t, c) [((3, "maker_name"), 4); ((103, "maker_name"), 104)];
  find_string t n pattern :=
    if decide (t = 6) then
      if decide (n = "th") then
        if pattern "シリーズ名" then Some 7 else None
      else None
    else None;
  find_next_sibling t n := assoc (t, n) [((7, "td"), 8)];
  find_name t n :=
    assoc (t, n) [((1, "a"), 2); ((4, "a"), 5); ((8, "a"), 9);
                  ((101, "a"), 102); ((104, "a"), 105)];
  find_all _ := [];
  tag_string t :=
    assoc t [(5, "Example Circle"); (9, "Example Series"); (105, "Example Circle")];
  contents t :=
    if decide (t = 2) then [Element 10; NavigableString "  Example Work "]
    else if decide (t = 102) then [NavigableString "Upcoming Work"] else [];
  strip s := String.rev (lstrip (String.rev (lstrip s)))
|}.

(** The network counts the requests it served.  One work is released,
    one is announced only, for one the server fails, and every other
    page is not found. *)
Definition sample_urlopen (url : string) (n : nat) : (exn + HTTPResponse) * nat :=
  (if decide (url = _get_work_url "RJ123456") then
     inr {| read_decode := inr "released" |}
   else if decide (url = _get_announce_url "RJ999999") then
     inr {| read_decode := inr "announced" |}
   else if decide (url = _get_work_url "RJ500500") then
     inl (HTTPError 500)
   else inl (HTTPError 404),
   S n).

Definition sample_fetch_work : string -> NetState nat -> (exn + Work nat) * NetState nat :=
  fetch_work (bs4 := sample_bs4) sample_urlopen.

Definition sample_home : path := ["home"; "user"].

Definition sample_fs : gmap path (node (Work nat)) :=
  {[ ["home"] := Dir; ["home"; "user"] := Dir ]}.

Definition sample_net : NetState nat := {| net := 0; requested := [] |}.

(** The state in which [get_fetcher()] has just returned. *)
Definition sample_new : State (Work nat) (NetState nat) :=
  match get_fetcher (bs4 := sample_bs4) sample_urlopen sample_home sample_fs with
  | (inr cf, fs') => {| self := cf; fs := fs'; env := sample_net; fetched := [] |}
  | (inl _, fs') =>
      {| self := __init__ [] sample_fetch_work; fs := fs'; env := sample_net;
         fetched := [] |}
  end.

(** Inside [with get_fetcher() as fetcher:], and after it. *)
Definition sample_open : State (Work nat) (NetState nat) := (__enter__ sample_new).2.
Definition sample_closed : State (Work nat) (NetState nat) := (__exit__ sample_open).2.

(** The state after a first run that fetched one work and left the
    [with] block, and the state of a second run, on a new fetcher,
    inside its [with] block. *)
Definition sample_first_run : State (Work nat) (NetState nat) :=
  (__exit__ (__call__ "RJ123456" sample_open).2).2.

Definition sample_second_run : State (Work nat) (NetState nat) :=
  (__enter__ {| self := __init__ (_path (self sample_new)) sample_fetch_work;
                fs := fs sample_first_run; env := sample_net; fetched := [] |}).2.

Definition example_work : Work nat :=
  {| rjcode := "RJ123456"; name := PyStr "Example Work";
     maker := "Example Circle"; series := Some "Example Series" |}.

(** A disk is the list of the work folders on it; a rename is a pair of
    an old and a new path, and fails on the folder [locked]. *)
Definition sample_find_works (top : path) (disk : list path) : exn + list path :=
  inr disk.

Definition sample_calculate_path_renames (works : list path) (disk : list path)
  : exn + list (path * path) :=
  inr ((λ p : path, (p, "sorted" :: p)) <$> works).

Definition sample_execute (r : path * path) (top : path) : M (list path) unit :=
  fun disk =>
    if decide (r.1 = ["locked"]) then (inl (OSError EACCES), disk)
    else (inr tt, (λ p : path, if decide (p = r.1) then r.2 else p) <$> disk).

Definition sample_remove_empty_dirs (top : path) : M (list path) unit := ret tt.

Definition sample_main : Args -> M (World (list path) (path * path)) unit :=
  main sample_find_works sample_calculate_path_renames sample_execute
    sample_remove_empty_dirs.

Definition sample_world : World (list path) (path * path) :=
  {| disk := [["RJ111111"]; ["locked"]; ["RJ222222"]; ["sub"; "RJ333333"]];
     trace := []; stdout := [] |}.

Definition sample_args (dry all : bool) : Args :=
  {| top_dir := ["top"]; dry_run := dry; all := all |}.

End Sample.

(** ** Pages with missing pieces *)

Module Odd.

(** Tag 0 is a page whose name anchor has no children and whose maker
    anchor has two; tag 10 is a page whose name anchor ends in a tag,
    and whose maker and series anchors hold no single string. *)
Definition odd_bs4 : BS4 nat := {|
  BeautifulSoup page _ := if decide (page = "empty") then 0 else 10;
  find_id t i :=
    Sample.assoc (t, i)
      [((0, "work_name"), 1); ((10, "work_name"), 11); ((10, "work_maker"), 13);
       ((10, "work_outline"), 16)];
  find_class t c := Sample.assoc (t, c) [((13, "maker_name"), 14)];
  find_string t n pattern :=
    if decide (t = 16) then
      if decide (n = "th") then
        if pattern "シリーズ名" then Some 17 else None
      else None
    else None;
  find_next_sibling t n := Sample.assoc (t, n) [((17, "td"), 18)];
  find_name t n :=
    Sample.assoc (t, n) [((1, "a"), 2); ((11, "a"), 12); ((14, "a"), 15); ((18, "a"), 19)];
  find_all _ := [];
  tag_string _ := None;
  contents t :=
    if decide (t = 12) then [NavigableString "Title"; Element 20] else [];
  strip s := s
|}.

(** Every page of the network is the second page. *)
Definition odd_urlopen (url : string) (n : nat) : (exn + HTTPResponse) * nat :=
  (inr {| read_decode := inr "odd" |}, S n).

End Odd.

(** * Properties *)

(** ** The cached fetcher *)

Section CachedFetcherFacts.

Context {V Env : Type}.
Implicit Types (st : State V Env) (d : gmap string V) (rjcode : string).

Lemma store_open st d :
  store st = Some d ↔ ∃ f, _shelf (self st) = Some (ShelfOpen f d).
Proof.
  unfold store. split.
  - destruct (_shelf (self st)) as [[f d'|]|]; intros Hd; simplify_eq. by exists f.
  - intros [f ->]. done.
Qed.

(** A hit returns the stored value and leaves everything as it was. *)
Lemma call_hit st d rjcode v :
  store st = Some d → d !! rjcode = Some v → __call__ rjcode st = (inr v, st).
Proof.
  intros [f Hs]%store_open Hv.
  unfold __call__, try_except, shelf_getitem. by rewrite Hs, Hv.
Qed.

(** A miss runs the wrapped fetcher once, and writes what it returns. *)
Lemma call_miss st d rjcode :
  store st = Some d → d !! rjcode = None →
  __call__ rjcode st =
    let st1 := (call_fetcher rjcode st).2 in
    match (call_fetcher rjcode st).1 with
    | inl e => (inl e, st1)
    | inr v => (inr v, set_shelf (Some (ShelfOpen
                 (match _shelf (self st) with
                  | Some (ShelfOpen f _) => f
                  | _ => []
                  end) (<[rjcode := v]> d))) st1)
    end.
Proof.
  intros [f Hs]%store_open Hv.
  unfold __call__, try_except, shelf_getitem, bind, call_fetcher, shelf_setitem.
  rewrite Hs, Hv.
  destruct (_fetcher (self st) rjcode (env st)) as [[e|v] env']; simpl; [done|].
  by rewrite Hs.
Qed.

Lemma fetch_count_app rjcode st c :
  length (filter (λ x, x = rjcode) (fetched st ++ [c])) =
  fetch_count rjcode st + (if decide (c = rjcode) then 1 else 0).
Proof.
  unfold fetch_count. rewrite filter_app, length_app. f_equal.
  rewrite filter_cons, filter_nil. by case_decide.
Qed.

(** Once an identifier is stored, a call on any identifier keeps it
    stored with the same value, and does not fetch it. *)
Lemma call_keeps st d rjcode v c :
  store st = Some d → d !! rjcode = Some v →
  ∃ d', store (__call__ c st).2 = Some d' ∧ d' !! rjcode = Some v ∧
        fetch_count rjcode (__call__ c st).2 = fetch_count rjcode st.
Proof.
  intros Hs Hv. destruct (d !! c) as [w|] eqn:Hc.
  - rewrite (call_hit st d c w) by done. eauto.
  - assert (c ≠ rjcode) as Hne by congruence.
    rewrite (call_miss st d c) by done.
    apply store_open in Hs as [f Hs].
    unfold call_fetcher.
    destruct (_fetcher (self st) c (env st)) as [[e|w] env'] eqn:Hf; simpl.
    + exists d. unfold store; simpl. rewrite Hs. split_and!; [done..|].
      unfold fetch_count at 1; simpl. rewrite fetch_count_app.
      case_decide; [done|lia].
    + exists (<[c := w]> d). unfold store; simpl. split_and!; [done| |].
      * by rewrite lookup_insert_ne.
      * unfold fetch_count at 1; simpl. rewrite fetch_count_app.
        case_decide; [done|lia].
Qed.

Lemma calls_keep rest : ∀ st d rjcode v,
  store st = Some d → d !! rjcode = Some v →
  (∀ i, rest !! i = Some rjcode → (calls rest st).1 !! i = Some (inr v)) ∧
  length (calls rest st).1 = length rest ∧
  fetch_count rjcode (calls rest st).2 = fetch_count rjcode st.
Proof.
  induction rest as [|c rest IH]; intros st d rjcode v Hs Hv; simpl.
  - split_and!; [|done..]. intros i Hi. by rewrite lookup_nil in Hi.
  - destruct (call_keeps st d rjcode v c Hs Hv) as (d' & Hs' & Hv' & Hn).
    destruct (__call__ c st) as [r st1] eqn:Hcall; simpl in *.
    destruct (IH st1 d' rjcode v Hs' Hv') as (Hall & Hlen & Hcnt).
    destruct (calls rest st1) as [rs st2] eqn:Hrest; simpl in *.
    split_and!; [|lia|congruence].
    intros [|i] Hi; simpl in *; [|by apply Hall].
    simplify_eq. rewrite (call_hit st d rjcode v) in Hcall by done. congruence.
Qed.

(** C1: on a cache miss the wrapped fetcher is invoked exactly once and
    its outcome is the outcome of the call; a value is in the store
    under the identifier when the call returns; an exception leaves the
    store as it was, and the next call on the identifier invokes the
    fetcher again. *)
Theorem cache_miss_fetches_once st d rjcode :
  store st = Some d → d !! rjcode = None →
  let r := (__call__ rjcode st).1 in
  let st' := (__call__ rjcode st).2 in
  fetched st' = fetched st ++ [rjcode] ∧
  (r, env st') = _fetcher (self st) rjcode (env st) ∧
  fs st' = fs st ∧
  match r with
  | inr v => store st' = Some (<[rjcode := v]> d)
  | inl e =>
      store st' = Some d ∧
      fetched (__call__ rjcode st').2 = fetched st ++ [rjcode; rjcode]
  end.
Proof.
  intros Hs Hv. cbv zeta.
  rewrite (call_miss st d rjcode) by done.
  pose proof Hs as [f Hf]%store_open.
  unfold call_fetcher.
  destruct (_fetcher (self st) rjcode (env st)) as [[e|v] env'] eqn:Hfetch;
    simpl; split_and!; try done.
  rewrite (call_miss _ d rjcode); [| unfold store; simpl; by rewrite Hf | done].
    unfold call_fetcher; simpl.
    destruct (_fetcher (self st) rjcode env') as [[e'|v'] env2]; simpl;
      by rewrite <- (assoc_L (++)).
Qed.

(** C2: after a call that returned a value, every later call on the
    same identifier returns that value, whatever other identifiers are
    asked for in between, and the wrapped fetcher is not invoked on it
    again: over the whole sequence it is invoked on it at most once. *)
Theorem cache_hit_never_fetches st rjcode v rest :
  (__call__ rjcode st).1 = inr v →
  let st1 := (__call__ rjcode st).2 in
  (∀ i, rest !! i = Some rjcode → (calls rest st1).1 !! i = Some (inr v)) ∧
  fetch_count rjcode (calls rest st1).2 = fetch_count rjcode st1 ∧
  (fetch_count rjcode (calls rest st1).2 ≤ fetch_count rjcode st + 1)%nat.
Proof.
  intros Hr. cbv zeta.
  assert (∃ d, store (__call__ rjcode st).2 = Some d ∧ d !! rjcode = Some v ∧
               (fetch_count rjcode (__call__ rjcode st).2 ≤ fetch_count rjcode st + 1)%nat)
    as (d & Hs & Hv & Hle).
  { revert Hr. unfold __call__, try_except, shelf_getitem, store.
    destruct (_shelf (self st)) as [[f d|]|] eqn:Hsh; simpl; [|done..].
    destruct (d !! rjcode) as [w|] eqn:Hw; simpl.
    - intros [= ->]. exists d. simpl. rewrite Hsh. split_and!; [done..|lia].
    - unfold bind, call_fetcher, shelf_setitem.
      destruct (_fetcher (self st) rjcode (env st)) as [[e|w] env']; simpl; [done|].
      rewrite Hsh; simpl. intros [= ->]. exists (<[rjcode := v]> d).
      split_and!; [done|by rewrite lookup_insert_eq|].
      unfold fetch_count at 1; simpl. rewrite fetch_count_app.
      case_decide; [lia|done]. }
  destruct (calls_keep rest _ d rjcode v Hs Hv) as (Hall & _ & Hcnt).
  split_and!; [done|done|lia].
Qed.

Lemma close_some st sh :
  _shelf (self st) = Some sh →
  (close st).1 = inr tt ∧ _shelf (self (close st).2) = Some ShelfClosed ∧
  env (close st).2 = env st ∧ fetched (close st).2 = fetched st.
Proof.
  intros Hs. unfold close. rewrite Hs. destruct sh; simpl; [done|].
  by rewrite Hs.
Qed.

(** C3, as amended: a call before the store was opened raises the
    [ValueError] of the unopened fetcher; once the store was opened,
    closing succeeds and a call after it raises the [ValueError] of the
    closed shelf; both calls leave the state as it is, so nothing is
    fetched and no value is returned. *)
Theorem call_unopened_or_closed st rjcode :
  (_shelf (self st) = None →
   __call__ rjcode st = (inl (ValueError "called unopened CachedFetcher"), st)) ∧
  (is_Some (_shelf (self st)) →
   (close st).1 = inr tt ∧
   __call__ rjcode (close st).2 =
     (inl (ValueError "invalid operation on closed shelf"), (close st).2)).
Proof.
  split.
  - intros Hs. unfold __call__, try_except, shelf_getitem. by rewrite Hs.
  - intros [sh Hs]. destruct (close_some st sh Hs) as (Hok & Hsh & _).
    split; [done|].
    unfold __call__, try_except, shelf_getitem. by rewrite Hsh.
Qed.

(** C10: [close()] on a fetcher that was never opened raises the
    [AttributeError] of [None], and so does leaving a [with] block that
    was never entered; [__call__] on the same fetcher raises the
    [ValueError] of the unopened fetcher. *)
Theorem close_unopened_crashes (p : path) (f : string → Env → (exn + V) * Env)
    (files : gmap path (node V)) (e : Env) (asked : list string) rjcode :
  let st := {| self := __init__ p f; fs := files; env := e; fetched := asked |} in
  close st = (inl (AttributeError "'NoneType' object has no attribute 'close'"), st) ∧
  __exit__ st = (inl (AttributeError "'NoneType' object has no attribute 'close'"), st) ∧
  __call__ rjcode st = (inl (ValueError "called unopened CachedFetcher"), st).
Proof. done. Qed.

End CachedFetcherFacts.

Import Sample.

Lemma cache_miss_fetches_once_witness :
  fetched (__call__ "RJ123456" sample_open).2 = ["RJ123456"] ∧
  fetched (__call__ "RJ000000" sample_open).2 = ["RJ000000"].
Proof.
  split.
  - apply (cache_miss_fetches_once sample_open ∅ "RJ123456"); reflexivity.
  - apply (cache_miss_fetches_once sample_open ∅ "RJ000000"); reflexivity.
Defined.

Lemma cache_hit_never_fetches_witness :
  fetch_count "RJ123456"
    (calls ["RJ123456"; "RJ999999"; "RJ123456"] (__call__ "RJ123456" sample_open).2).2
  = fetch_count "RJ123456" (__call__ "RJ123456" sample_open).2.
Proof.
  eapply (cache_hit_never_fetches sample_open "RJ123456").
  vm_compute. reflexivity.
Defined.

Lemma call_unopened_or_closed_witness :
  __call__ "RJ123456" sample_new =
    (inl (ValueError "called unopened CachedFetcher"), sample_new) ∧
  __call__ "RJ123456" (close sample_open).2 =
    (inl (ValueError "invalid operation on closed shelf"), (close sample_open).2).
Proof.
  split.
  - apply (call_unopened_or_closed sample_new "RJ123456"). reflexivity.
  - apply (call_unopened_or_closed sample_open "RJ123456"). vm_compute. eauto.
Defined.

(** C3, as the specification has it, fails after [close()]: the call
    raises the error of the closed shelf, which is not the error of the
    unopened fetcher. *)
Lemma call_after_close_not_unopened_error :
  _shelf (self sample_closed) = Some ShelfClosed ∧
  (__call__ "RJ123456" sample_closed).1 =
    inl (ValueError "invalid operation on closed shelf") ∧
  (__call__ "RJ123456" sample_closed).1 ≠
    inl (ValueError "called unopened CachedFetcher").
Proof. split_and!; [reflexivity|reflexivity|discriminate]. Qed.


(** The store is empty: the first call fetches once, the second call
    returns the same record and fetches nothing. *)
Example first_call_fetches_second_does_not :
  calls ["RJ123456"; "RJ123456"] sample_open =
    ([inr example_work; inr example_work], (calls ["RJ123456"] sample_open).2) ∧
  fetched (calls ["RJ123456"; "RJ123456"] sample_open).2 = ["RJ123456"] ∧
  requested (env (calls ["RJ123456"; "RJ123456"] sample_open).2) =
    [_get_work_url "RJ123456"].
Proof. split_and!; reflexivity. Qed.

(** A fetch that fails is not remembered: the next call fetches again. *)
Example failed_fetch_is_retried :
  (calls ["RJ000000"; "RJ000000"] sample_open).1 =
    [inl (HTTPError 404); inl (HTTPError 404)] ∧
  fetched (calls ["RJ000000"; "RJ000000"] sample_open).2 = ["RJ000000"; "RJ000000"] ∧
  store (calls ["RJ000000"; "RJ000000"] sample_open).2 = Some ∅.
Proof. split_and!; reflexivity. Qed.

(** What one run stored, the next run finds without fetching. *)
Example cache_persists_across_runs :
  __call__ "RJ123456" sample_second_run = (inr example_work, sample_second_run) ∧
  fetched sample_second_run = [] ∧
  requested (env sample_second_run) = [].
Proof. split_and!; reflexivity. Qed.

(** ** The page fetcher *)

Section ApiFacts.

Context {Net Tag : Type} {bs4 : BS4 Tag}.
Variable urlopen : string -> Net -> (exn + HTTPResponse) * Net.

(** The two URLs of an identifier are different, so the requests to
    them are told apart. *)
Lemma work_url_not_announce_url rjcode :
  _get_work_url rjcode ≠ _get_announce_url rjcode.
Proof. unfold _get_work_url, _get_announce_url. simpl. intros Heq. simplify_eq. Qed.

Example work_url_RJ123456 :
  _get_work_url "RJ123456" =
  "http://www.dlsite.com/maniax/work/=/product_id/RJ123456.html".
Proof. reflexivity. Qed.

(** C4: the work URL is requested first; the announce URL is requested
    next exactly when that request failed with the HTTP error 404, and
    its outcome is then the outcome; any other exception of the first
    request is the outcome, and nothing else is requested. *)
Theorem get_page_falls_back_on_404 rjcode (st : NetState Net) :
  let first := urlopen (_get_work_url rjcode) (net st) in
  let second := urlopen (_get_announce_url rjcode) first.2 in
  _get_page urlopen rjcode st =
    if decide (first.1 = inl (HTTPError 404)) then
      (page_of second.1,
       {| net := second.2;
          requested := requested st ++ [_get_work_url rjcode; _get_announce_url rjcode] |})
    else
      (page_of first.1,
       {| net := first.2; requested := requested st ++ [_get_work_url rjcode] |}).
Proof.
  cbv zeta. unfold _get_page, bind, try_except, urllib_request_urlopen, lift.
  destruct (urlopen (_get_work_url rjcode) (net st)) as [[e|response] net1]; simpl.
  - case_decide as He.
    + simplify_eq. simpl.
      destruct (urlopen (_get_announce_url rjcode) net1) as [[e2|response2] net2];
        simpl; by rewrite <- (assoc_L (++)).
    + destruct e; try done. simpl.
      destruct (Z.eqb_spec code 404) as [->|Hne]; [done|]. done.
  - done.
Qed.

Lemma get_series_on_page soup :
  _get_series soup =
    match series_on_page soup with
    | Some a => inr (str (tag_string a))
    | None => inl (ValueError "no series")
    end.
Proof.
  unfold _get_series, series_on_page.
  destruct (find_id soup "work_outline") as [t1|]; simpl; [|done].
  destruct (find_string t1 "th" _SERIES_PATTERN) as [t2|]; simpl; [|done].
  destruct (find_next_sibling t2 "td") as [t3|]; simpl; [|done].
  by destruct (find_name t3 "a").
Qed.

Lemma get_maker_on_page soup :
  match maker_on_page soup with
  | Some a => _get_maker soup = inr (str (tag_string a))
  | None => ∃ msg, _get_maker soup = inl (AttributeError msg)
  end.
Proof.
  unfold _get_maker, maker_on_page.
  destruct (find_id soup "work_maker") as [t1|]; simpl; [|eauto].
  destruct (find_class t1 "maker_name") as [t2|]; simpl; [|eauto].
  destruct (find_name t2 "a"); simpl; eauto.
Qed.

Lemma get_name_on_page soup :
  match name_on_page soup with
  | Some a => _get_name soup = (x ← getitem_last (contents a); element_strip x)
  | None => ∃ msg, _get_name soup = inl (AttributeError msg)
  end.
Proof.
  unfold _get_name, name_on_page.
  destruct (find_id soup "work_name") as [t1|]; simpl; [|eauto].
  destruct (find_name t1 "a"); simpl; eauto.
Qed.

(** C7: [fetch_work], stated against the page.  When the page is
    fetched, the name is read off the last child of the name anchor of
    the page and the maker off the string of its maker anchor, and the
    record of the identifier has that name, that maker, and a series
    exactly when the page has a series anchor; a page without a series
    gives the record all the same.  A page without the name anchor or
    without the maker anchor makes [fetch_work] raise
    [AttributeError]; a name anchor without children makes it raise
    [IndexError], and one whose last child is a tag that cannot be
    called [TypeError].  The network is left as the page fetch left
    it. *)
Theorem fetch_work_record rjcode (st : NetState Net) :
  match _get_page urlopen rjcode st with
  | (inl e, st1) => fetch_work urlopen rjcode st = (inl e, st1)
  | (inr page, st1) =>
      let soup := BeautifulSoup page "lxml" in
      let record_named (n : pyobj Tag) :=
        match maker_on_page soup with
        | None =>
            ∃ msg, fetch_work urlopen rjcode st = (inl (AttributeError msg), st1)
        | Some b =>
            fetch_work urlopen rjcode st =
              (inr {| rjcode := rjcode; name := n; maker := str (tag_string b);
                      series := (λ c, str (tag_string c)) <$> series_on_page soup |},
               st1)
        end in
      match name_on_page soup with
      | None =>
          ∃ msg, fetch_work urlopen rjcode st = (inl (AttributeError msg), st1)
      | Some a =>
          match last (contents a) with
          | None =>
              fetch_work urlopen rjcode st =
                (inl (IndexError "list index out of range"), st1)
          | Some (NavigableString s) => record_named (PyStr (strip s))
          | Some (Element t) =>
              match find_name t "strip" with
              | None =>
                  fetch_work urlopen rjcode st =
                    (inl (TypeError "'NoneType' object is not callable"), st1)
              | Some f => record_named (ResultSet (find_all f))
              end
          end
      end
  end.
Proof.
  unfold fetch_work, bind, lift.
  destruct (_get_page urlopen rjcode st) as [[e|page] st1]; [done|].
  cbv zeta. set (soup := BeautifulSoup page "lxml").
  pose proof (get_name_on_page soup) as Hname.
  pose proof (get_maker_on_page soup) as Hmaker.
  rewrite (get_series_on_page soup).
  destruct (name_on_page soup) as [a|];
    [|destruct Hname as [msg ->]; by exists msg].
  rewrite Hname. unfold getitem_last.
  destruct (last (contents a)) as [[s|t]|]; simpl; [| |done].
  - destruct (maker_on_page soup) as [b|];
      [rewrite Hmaker; by destruct (series_on_page soup)
      |destruct Hmaker as [msg ->]; by exists msg].
  - destruct (find_name t "strip"); simpl; [|done].
    destruct (maker_on_page soup) as [b|];
      [rewrite Hmaker; by destruct (series_on_page soup)
      |destruct Hmaker as [msg ->]; by exists msg].
Qed.

End ApiFacts.

Lemma fetch_work_record_witness :
  fetch_work (bs4 := sample_bs4) sample_urlopen "RJ123456" sample_net =
    (inr {| rjcode := "RJ123456"; name := PyStr "Example Work";
            maker := "Example Circle"; series := Some "Example Series" |},
     {| net := 1; requested := [_get_work_url "RJ123456"] |}) ∧
  fetch_work (bs4 := sample_bs4) sample_urlopen "RJ999999" sample_net =
    (inr {| rjcode := "RJ999999"; name := PyStr "Upcoming Work";
            maker := "Example Circle"; series := None |},
     {| net := 2;
        requested := [_get_work_url "RJ999999"; _get_announce_url "RJ999999"] |}) ∧
  (∃ msg,
     fetch_work (bs4 := sample_bs4) Odd.odd_urlopen "RJ123456" sample_net =
       (inl (AttributeError msg),
        {| net := 1; requested := [_get_work_url "RJ123456"] |})) ∧
  fetch_work (bs4 := Odd.odd_bs4) Odd.odd_urlopen "RJ123456" sample_net =
    (inl (TypeError "'NoneType' object is not callable"),
     {| net := 1; requested := [_get_work_url "RJ123456"] |}).
Proof.
  split_and!.
  - exact (fetch_work_record (bs4 := sample_bs4) sample_urlopen "RJ123456" sample_net).
  - exact (fetch_work_record (bs4 := sample_bs4) sample_urlopen "RJ999999" sample_net).
  - exact (fetch_work_record (bs4 := sample_bs4) Odd.odd_urlopen "RJ123456" sample_net).
  - exact (fetch_work_record (bs4 := Odd.odd_bs4) Odd.odd_urlopen "RJ123456" sample_net).
Defined.

Example fetch_announced_work :
  (sample_fetch_work "RJ999999" sample_net).1 =
  inr {| rjcode := "RJ999999"; name := PyStr "Upcoming Work";
         maker := "Example Circle"; series := None |}.
Proof. reflexivity. Qed.

Example fetch_released_work :
  (sample_fetch_work "RJ123456" sample_net).1 =
  inr {| rjcode := "RJ123456"; name := PyStr "Example Work";
         maker := "Example Circle"; series := Some "Example Series" |}.
Proof. reflexivity. Qed.

Example fetch_server_error :
  sample_fetch_work "RJ500500" sample_net =
  (inl (HTTPError 500),
   {| net := 1; requested := [_get_work_url "RJ500500"] |}).
Proof. reflexivity. Qed.

(** ** Making the cache directory *)

Section FileSystemFacts.

Context {V : Type}.
Implicit Types (fs : gmap path (node V)) (p q : path).

Lemma lookup_node_insert fs p q :
  lookup_node (<[p := Dir]> fs) q =
  if decide (p = q) then Some Dir else lookup_node fs q.
Proof.
  destruct q as [|c q]; simpl.
  - by case_decide.
  - case_decide as Hp; [subst; by rewrite lookup_insert_eq|].
    by rewrite lookup_insert_ne.
Qed.

Lemma lookup_node_snoc fs p (c : string) :
  lookup_node fs (p ++ [c]) = fs !! (p ++ [c]).
Proof. by destruct p. Qed.

Lemma prefix_snoc_inv q p (c : string) :
  q `prefix_of` p ++ [c] → q = p ++ [c] ∨ q `prefix_of` p.
Proof.
  intros [k Hk]. destruct (decide (k = [])) as [->|Hne].
  - left. by rewrite app_nil_r in Hk.
  - right. destruct (exists_last Hne) as (k' & x & ->).
    rewrite (assoc_L (++)) in Hk. apply app_inj_tail in Hk as [-> _].
    by exists k'.
Qed.

(** The walk succeeds exactly when every directory on the way is there. *)
Lemma walk_None fs rest : ∀ cur,
  walk fs cur rest = None ↔
  ∀ q, q `prefix_of` rest → lookup_node fs (cur ++ q) = Some Dir.
Proof.
  induction rest as [|c rest IH]; intros cur; simpl.
  - split.
    + intros Hw q ->%prefix_nil_inv. rewrite app_nil_r.
      destruct (lookup_node fs cur) as [[]|]; by simplify_eq.
    + intros Hq. specialize (Hq [] (prefix_nil _)). rewrite app_nil_r in Hq.
      by rewrite Hq.
  - split.
    + intros Hw q Hq.
      destruct (lookup_node fs cur) as [[]|] eqn:Hcur; simplify_eq.
      destruct q as [|c' q]; [by rewrite app_nil_r|].
      pose proof (prefix_cons_inv_1 _ _ _ _ Hq) as ->.
      apply prefix_cons_inv_2 in Hq.
      apply IH with (q := q) in Hw; [|done].
      by rewrite <- (assoc_L (++)) in Hw.
    + intros Hq. pose proof (Hq [] (prefix_nil _)) as Hcur.
      rewrite app_nil_r in Hcur. rewrite Hcur.
      apply IH. intros q Hp. rewrite <- (assoc_L (++)). simpl.
      apply Hq. by apply prefix_cons.
Qed.

(** A walk that fails found a missing component or a file. *)
Lemma walk_Some fs rest : ∀ cur e,
  walk fs cur rest = Some e →
  ∃ q, q `prefix_of` rest ∧
       ((e = ENOENT ∧ lookup_node fs (cur ++ q) = None) ∨
        (e = ENOTDIR ∧ ∃ n, lookup_node fs (cur ++ q) = Some n ∧ n ≠ Dir)).
Proof.
  induction rest as [|c rest IH]; intros cur e; simpl.
  - intros Hw. exists []. split; [done|]. rewrite app_nil_r.
    destruct (lookup_node fs cur) as [[]|]; simplify_eq; eauto 6.
  - intros Hw. destruct (lookup_node fs cur) as [n|] eqn:Hcur.
    + destruct n.
      * apply IH in Hw as (q & Hq & Hw). exists (c :: q).
        split; [by apply prefix_cons|].
        by rewrite <- (assoc_L (++)) in Hw.
      * simplify_eq. exists []. split; [apply prefix_nil|].
        rewrite app_nil_r. right. split; [done|]. eauto.
      * simplify_eq. exists []. split; [apply prefix_nil|].
        rewrite app_nil_r. right. split; [done|]. eauto.
    + simplify_eq. exists []. split; [apply prefix_nil|].
      rewrite app_nil_r. by left.
Qed.

Lemma parent_snoc p (c : string) : parent (p ++ [c]) = p.
Proof. apply removelast_last. Qed.

(** [os.mkdir] of a path whose parent directories are all there makes
    the directory when nothing has its name. *)
Lemma os_mkdir_new fs p c :
  dirs_to fs p → lookup_node fs (p ++ [c]) = None →
  os_mkdir (p ++ [c]) fs = (inr tt, <[p ++ [c] := Dir]> fs).
Proof.
  intros Hd Hn. unfold os_mkdir. rewrite parent_snoc.
  rewrite (proj2 (walk_None fs p [])); [by rewrite Hn|].
  intros q Hq. by apply Hd.
Qed.

Lemma os_mkdir_exists fs p c n :
  dirs_to fs p → lookup_node fs (p ++ [c]) = Some n →
  os_mkdir (p ++ [c]) fs = (inl (OSError EEXIST), fs).
Proof.
  intros Hd Hn. unfold os_mkdir. rewrite parent_snoc.
  rewrite (proj2 (walk_None fs p [])); [by rewrite Hn|].
  intros q Hq. by apply Hd.
Qed.

Lemma dirs_to_snoc fs p c :
  dirs_to fs p → lookup_node fs (p ++ [c]) = Some Dir → dirs_to fs (p ++ [c]).
Proof. intros Hd Hp q [->|Hq]%prefix_snoc_inv; [done|by apply Hd]. Qed.

Lemma dirs_to_insert fs p c :
  dirs_to fs p → dirs_to (<[p ++ [c] := Dir]> fs) (p ++ [c]).
Proof.
  intros Hd q Hq. rewrite lookup_node_insert. case_decide; [done|].
  apply prefix_snoc_inv in Hq as [->|Hq]; [done|by apply Hd].
Qed.

Lemma made_snoc_step fs fs1 p c :
  made fs fs1 p → clear_to fs (p ++ [c]) →
  ∃ fs', mkdir_plain (p ++ [c]) true fs1 = (inr tt, fs') ∧ made fs fs' (p ++ [c]).
Proof.
  intros (Hd & Hsub & Hoff) Hclear.
  assert (lookup_node fs1 (p ++ [c]) = lookup_node fs (p ++ [c])) as Hsame.
  { destruct (p ++ [c]) as [|x l] eqn:Hp; [done|]. simpl. rewrite <- Hp.
    apply Hoff. apply prefix_snoc_not. }
  unfold mkdir_plain, try_except.
  destruct (Hclear (p ++ [c])) as [Hnone|Hdir]; [done| |].
  - rewrite (os_mkdir_new fs1 p c) by (by rewrite ?Hsame).
    eexists. split; [done|]. split_and!.
    + by apply dirs_to_insert.
    + etrans; [done|]. apply insert_subseteq.
      rewrite <- Hsame in Hnone. by destruct (p ++ [c]).
    + intros q Hq. rewrite lookup_insert_ne; [|by intros <-].
      apply Hoff. intros Hq'. apply Hq. by apply prefix_app_r.
  - rewrite (os_mkdir_exists fs1 p c Dir) by (by rewrite ?Hsame).
    unfold mkdir_exists, is_dir. rewrite Hsame, Hdir. simpl.
    eexists. split; [done|]. split_and!; [|done|].
    + apply dirs_to_snoc; [done|]. by rewrite Hsame.
    + intros q Hq. apply Hoff. intros Hq'. apply Hq. by apply prefix_app_r.
Qed.

Lemma mkdir_parents_rev_made rparts : ∀ fs,
  clear_to fs (rev rparts) →
  ∃ fs', mkdir_parents_rev rparts true fs = (inr tt, fs') ∧ made fs fs' (rev rparts).
Proof.
  induction rparts as [|c rp IH]; intros fs Hclear.
  - exists fs. split; [done|]. split_and!; [|done..].
    by intros q ->%prefix_nil_inv.
  - simpl in *. unfold try_except.
    assert (clear_to fs (rev rp)) as Hclear'.
    { intros q Hq. apply Hclear. by apply prefix_app_r. }
    unfold os_mkdir at 1. rewrite parent_snoc.
    destruct (walk fs [] (rev rp)) as [e|] eqn:Hwalk.
    + apply walk_Some in Hwalk as (q & Hq & [[-> Hnone]|[-> (n & Hn & Hfile)]]).
      * destruct (IH fs Hclear') as (fs1 & Hrun & Hmade).
        simpl. unfold bind. rewrite Hrun.
        by apply made_snoc_step.
      * destruct (Hclear' q Hq); simpl in *; congruence.
    + assert (made fs fs (rev rp)) as Hmade.
      { split_and!; [|done..]. intros q Hq.
        by apply (proj1 (walk_None fs (rev rp) []) Hwalk). }
      destruct (made_snoc_step fs fs (rev rp) c Hmade Hclear) as (fs' & Hrun & Hmade').
      exists fs'. split; [|done].
      revert Hrun. unfold mkdir_plain, try_except, os_mkdir.
      rewrite parent_snoc, Hwalk.
      destruct (lookup_node fs (rev rp ++ [c])); simpl; [|done].
      unfold mkdir_exists. by destruct (is_dir fs (rev rp ++ [c])).
Qed.

Lemma mkdir_parents_made fs p :
  clear_to fs p →
  ∃ fs', mkdir_parents p true fs = (inr tt, fs') ∧ made fs fs' p.
Proof.
  intros Hclear. unfold mkdir_parents.
  destruct (mkdir_parents_rev_made (rev p) fs) as (fs' & Hrun & Hmade).
  - by rewrite rev_involutive.
  - rewrite rev_involutive in Hmade. eauto.
Qed.

End FileSystemFacts.

Section FileSystemChecks.

Context {V : Type}.

Lemma clear_tob_true (fs : gmap path (node V)) (p : path) :
  clear_tob fs p = true → clear_to fs p.
Proof.
  unfold clear_tob. rewrite forallb_forall. intros Hall q [k ->].
  specialize (Hall (length q)). rewrite take_app_length in Hall.
  destruct (lookup_node fs q) as [[]|]; auto;
    exfalso; (enough (false = true) by done); apply Hall;
    apply in_seq; rewrite length_app; lia.
Qed.

End FileSystemChecks.

(** ** The default fetcher *)

Section GetFetcherFacts.

Context {Net Tag : Type} {bs4 : BS4 Tag}.
Variable urlopen : string -> Net -> (exn + HTTPResponse) * Net.
Variable home : path.

Lemma parent_CACHE : parent (_CACHE home) = home ++ [".cache"].
Proof.
  unfold _CACHE. change [".cache"; "mir.dlsite.db"] with ([".cache"] ++ ["mir.dlsite.db"]).
  rewrite (assoc_L (++)). apply removelast_last.
Qed.

(** C9: the fetcher that [get_fetcher] returns is the one on
    [fetch_work] and on the file [mir.dlsite.db] of the directory
    [.cache] of the home directory, whatever the file system holds.
    When no file stands in the way, [get_fetcher] returns, the
    directory and the directories above it are there afterwards, and
    nothing else has changed; entering the fetcher then opens the data
    base, with the dictionary that an earlier run left in the file, or
    empty when there is no file yet. *)
Theorem get_fetcher_cache_path (fs : gmap path (node (Work Tag))) :
  clear_to fs (home ++ [".cache"]) →
  let cache := home ++ [".cache"; "mir.dlsite.db"] in
  let fetcher := __init__ cache (fetch_work urlopen) in
  ∃ fs',
    get_fetcher urlopen home fs = (inr fetcher, fs') ∧
    made fs fs' (home ++ [".cache"]) ∧
    ∀ (e : NetState Net) (asked : list string),
      let st := {| self := fetcher; fs := fs'; env := e; fetched := asked |} in
      match fs !! cache with
      | None => (__enter__ st).1 = inr tt ∧ store (__enter__ st).2 = Some ∅
      | Some (DbFile d) => (__enter__ st).1 = inr tt ∧ store (__enter__ st).2 = Some d
      | Some _ => ∃ err, (__enter__ st).1 = inl err
      end.
Proof.
  intros Hclear. cbv zeta.
  destruct (mkdir_parents_made fs (home ++ [".cache"]) Hclear) as (fs' & Hrun & Hmade).
  exists fs'. split_and!; [|done|].
  - unfold get_fetcher, bind. rewrite parent_CACHE, Hrun. done.
  - intros e asked. destruct Hmade as (Hdirs & Hsub & Hoff).
    fold (_CACHE home).
    assert (lookup_node fs' (_CACHE home) = fs !! _CACHE home) as Hsame.
    { assert (_CACHE home = (home ++ [".cache"]) ++ ["mir.dlsite.db"]) as Hc
        by (by rewrite <- (assoc_L (++))).
      rewrite Hc, lookup_node_snoc. apply Hoff, prefix_snoc_not. }
    unfold __enter__, bind, shelve_open; simpl.
    rewrite parent_CACHE, (proj2 (walk_None fs' (home ++ [".cache"]) [])), Hsame
      by (intros q Hq; by apply Hdirs).
    destruct (fs !! _CACHE home) as [[]|]; simpl; eauto.
Qed.

End GetFetcherFacts.

Lemma get_fetcher_cache_path_witness :
  ∃ fs',
    get_fetcher (bs4 := sample_bs4) sample_urlopen sample_home sample_fs =
      (inr (__init__ ["home"; "user"; ".cache"; "mir.dlsite.db"] sample_fetch_work), fs') ∧
    made sample_fs fs' ["home"; "user"; ".cache"].
Proof.
  destruct (get_fetcher_cache_path (bs4 := sample_bs4) sample_urlopen sample_home sample_fs)
    as (fs' & Hrun & Hmade & _).
  - apply clear_tob_true. vm_compute. reflexivity.
  - exists fs'. split; [exact Hrun | exact Hmade].
Defined.

Example get_fetcher_makes_the_directory :
  is_dir sample_fs ["home"; "user"; ".cache"] = false ∧
  is_dir (fs sample_new) ["home"; "user"; ".cache"] = true ∧
  _path (self sample_new) = ["home"; "user"; ".cache"; "mir.dlsite.db"].
Proof. split_and!; reflexivity. Qed.

(** A file where the directory should be makes [get_fetcher] raise. *)
Example get_fetcher_blocked :
  (get_fetcher (bs4 := sample_bs4) sample_urlopen sample_home
     (<[ ["home"; "user"; ".cache"] := OtherFile ]> sample_fs)).1 =
  inl (OSError EEXIST).
Proof. reflexivity. Qed.

(** ** The command *)

Section DlorgFacts.

Context {Disk PathRename : Type}.
Variable find_works : path -> Disk -> exn + list path.
Variable calculate_path_renames : list path -> Disk -> exn + list PathRename.
Variable execute : PathRename -> path -> M Disk unit.
Variable remove_empty_dirs : path -> M Disk unit.

Implicit Types (w : World Disk PathRename) (renames : list PathRename).

Lemma elem_of_top_level (works : list path) (p : path) :
  p ∈ top_level works ↔ p ∈ works ∧ length p = 1.
Proof. unfold top_level. rewrite list_elem_of_filter. tauto. Qed.

(** The loop over renames that all succeed. *)
Lemma loop_all_succeed top renames : ∀ w d,
  for_each renames (fun r => execute r top) (disk w) = (inr tt, d) →
  for_each renames (r_execute execute top) w =
    (inr tt, {| disk := d;
                trace := trace w ++ ((λ r, Executed r top) <$> renames);
                stdout := stdout w |}).
Proof.
  unfold r_execute. induction renames as [|r renames IH]; intros w d; simpl.
  - unfold ret. intros [= <-]. rewrite app_nil_r. by destruct w.
  - unfold bind, changing.
    destruct (execute r top (disk w)) as [[e|[]] d1] eqn:Hr; [done|].
    intros Hrest. erewrite IH; [|done]. simpl.
    by rewrite <- (assoc_L (++)).
Qed.

(** The loop stops at the first rename that raises. *)
Lemma loop_stops top before r rest : ∀ w d e d',
  for_each before (fun r => execute r top) (disk w) = (inr tt, d) →
  execute r top d = (inl e, d') →
  for_each (before ++ r :: rest) (r_execute execute top) w =
    (inl e, {| disk := d';
               trace := trace w ++ ((λ r, Executed r top) <$> (before ++ [r]));
               stdout := stdout w |}).
Proof.
  unfold r_execute. induction before as [|b before IH]; intros w d e d'; simpl.
  - unfold ret. intros [= <-] Hr. unfold bind, changing. by rewrite Hr.
  - unfold bind at 1 2. unfold changing at 1.
    destruct (execute b top (disk w)) as [[e1|[]] d1] eqn:Hb; [done|].
    intros Hbefore Hr. erewrite IH; [|done..]. simpl.
    by rewrite <- (assoc_L (++)).
Qed.

(** C8: the works handed to the planner are the works found when
    [--all] is given, and otherwise exactly those of them whose path
    has one part, in the order in which they were found. *)
Theorem main_selects_works args w works :
  find_works (top_dir args) (disk w) = inr works →
  ∃ selected rest,
    trace (main find_works calculate_path_renames execute remove_empty_dirs args w).2 =
      trace w ++ Found (top_dir args) :: Planned selected :: rest ∧
    (∀ ev, ev ∈ rest → ∀ ws, ev ≠ Planned ws) ∧
    (all args = true → selected = works) ∧
    (all args = false →
     selected = filter (λ p : path, length p = 1) works ∧
     ∀ p : path, p ∈ selected ↔ p ∈ works ∧ length p = 1).
Proof.
  intros Hfound.
  exists (if negb (all args) then top_level works else works).
  unfold main, bind, org_find_works, org_calculate_path_renames, org_remove_empty_dirs, reading. simpl. rewrite Hfound.
  set (selected := if negb (all args) then top_level works else works).
  assert ((all args = true → selected = works) ∧
          (all args = false →
           selected = filter (λ p : path, length p = 1) works ∧
           ∀ p : path, p ∈ selected ↔ p ∈ works ∧ length p = 1)) as [Hall Htop].
  { subst selected. destruct (all args); simpl; split; try done.
    intros _. split; [done|]. intros p. apply elem_of_top_level. }
  destruct (calculate_path_renames selected (disk w)) as [e|renames] eqn:Hplan; simpl.
  { exists []. split_and!; [by rewrite <- (assoc_L (++))| |done..].
    by intros ev ?%elem_of_nil. }
  destruct (dry_run args).
  { exists []. split_and!; [unfold ret, log; simpl; by rewrite <- ?(assoc_L (++))| |done..].
    by intros ev ?%elem_of_nil. }
  set (w1 := log _ (log _ w)).
  assert (∀ (rs : list PathRename) w0,
            ∃ rest0, trace (for_each rs (r_execute execute (top_dir args)) w0).2 =
                       trace w0 ++ rest0 ∧
                     (∀ ev, ev ∈ rest0 → ∀ ws, ev ≠ Planned ws) ∧
                     stdout (for_each rs (r_execute execute (top_dir args)) w0).2 = stdout w0)
    as Hloop.
  { unfold r_execute. induction rs as [|r rs IH]; intros w0; simpl.
    - exists []. split_and!; [by rewrite app_nil_r| |done].
      by intros ev ?%elem_of_nil.
    - unfold bind at 1 2, changing at 1 3.
      destruct (execute r (top_dir args) (disk w0)) as [[e|[]] d1]; simpl.
      + exists [Executed r (top_dir args)]. split_and!; [done| |done].
        intros ev ->%list_elem_of_singleton. done.
      + destruct (IH {| disk := d1; trace := trace w0 ++ [Executed r (top_dir args)];
                        stdout := stdout w0 |}) as (rest0 & Ht & Hno & Hout).
        exists (Executed r (top_dir args) :: rest0). simpl in *.
        rewrite Ht, <- (assoc_L (++)). split_and!; [done| |done].
        intros ev [->|Hev]%elem_of_cons; [done|by apply Hno]. }
  destruct (Hloop renames w1) as (rest0 & Ht & Hno & _).
  destruct (for_each renames (r_execute execute (top_dir args)) w1) as [[e|[]] w2] eqn:Hrun;
    simpl in *.
  - exists rest0. split_and!; [|done..].
    rewrite Ht. subst w1. simpl. by rewrite <- !(assoc_L (++)).
  - exists (rest0 ++ [Cleaned (top_dir args)]). unfold changing.
    destruct (remove_empty_dirs (top_dir args) (disk w2)) as [res d3]; simpl.
    split_and!; [|..|done|done].
    + rewrite Ht. subst w1. simpl. by rewrite <- !(assoc_L (++)).
    + intros ev [Hev| ->%list_elem_of_singleton]%elem_of_app; [by apply Hno|done].
Qed.

(** C5, as amended: without [--dry-run] the renames are executed in the
    order of the plan.  When every rename succeeds, the empty
    directories are removed after the last one.  When a rename raises,
    the command raises the same exception at once: the renames after
    it are not executed and the empty directories are not removed. *)
Theorem main_stops_at_failed_rename args w works :
  dry_run args = false →
  find_works (top_dir args) (disk w) = inr works →
  let top := top_dir args in
  let selected := if all args then works else top_level works in
  let planned := trace w ++ [Found top; Planned selected] in
  (∀ renames d,
     calculate_path_renames selected (disk w) = inr renames →
     for_each renames (fun r => execute r top) (disk w) = (inr tt, d) →
     main find_works calculate_path_renames execute remove_empty_dirs args w =
       ((remove_empty_dirs top d).1,
        {| disk := (remove_empty_dirs top d).2;
           trace := planned ++ ((λ r, Executed r top) <$> renames) ++ [Cleaned top];
           stdout := stdout w |})) ∧
  (∀ before r rest d e d',
     calculate_path_renames selected (disk w) = inr (before ++ r :: rest) →
     for_each before (fun r => execute r top) (disk w) = (inr tt, d) →
     execute r top d = (inl e, d') →
     main find_works calculate_path_renames execute remove_empty_dirs args w =
       (inl e,
        {| disk := d';
           trace := planned ++ ((λ r, Executed r top) <$> (before ++ [r]));
           stdout := stdout w |})).
Proof.
  intros Hdry Hfound. cbv zeta.
  assert ((if negb (all args) then top_level works else works) =
          (if all args then works else top_level works)) as Hsel
    by (by destruct (all args)).
  split.
  - intros renames d Hplan Hrun.
    unfold main, bind at 1 2, org_find_works, org_calculate_path_renames, org_remove_empty_dirs, reading. simpl. rewrite Hfound, Hsel, Hplan, Hdry.
    unfold bind. erewrite loop_all_succeed; [|done]. unfold changing. simpl.
    destruct (remove_empty_dirs (top_dir args) d) as [res d3]; simpl.
    by rewrite <- !(assoc_L (++)).
  - intros before r rest d e d' Hplan Hrun Hr.
    unfold main, bind at 1 2, org_find_works, org_calculate_path_renames, org_remove_empty_dirs, reading. simpl. rewrite Hfound, Hsel, Hplan, Hdry.
    unfold bind. erewrite loop_stops; [|done..]. simpl.
    by rewrite <- !(assoc_L (++)).
Qed.

(** With [--dry-run] the command returns once the plan is computed:
    nothing is printed, the disk is as it was, no rename is executed
    and no directory is removed. *)
Lemma main_dry_run args w works renames :
  dry_run args = true →
  find_works (top_dir args) (disk w) = inr works →
  let selected := if all args then works else top_level works in
  calculate_path_renames selected (disk w) = inr renames →
  main find_works calculate_path_renames execute remove_empty_dirs args w =
    (inr tt,
     {| disk := disk w;
        trace := trace w ++ [Found (top_dir args); Planned selected];
        stdout := stdout w |}).
Proof.
  intros Hdry Hfound selected Hplan. subst selected.
  assert ((if negb (all args) then top_level works else works) =
          (if all args then works else top_level works)) as Hsel
    by (by destruct (all args)).
  unfold main, bind, org_find_works, org_calculate_path_renames, org_remove_empty_dirs, reading. simpl. rewrite Hfound, Hsel, Hplan, Hdry.
  unfold ret, log. simpl. by rewrite <- (assoc_L (++)).
Qed.

End DlorgFacts.

(** ** The command on the sample disk *)

Lemma main_selects_works_witness :
  ∃ selected rest,
    trace (sample_main (sample_args false false) sample_world).2 =
      trace sample_world ++ Found ["top"] :: Planned selected :: rest ∧
    (∀ ev, ev ∈ rest → ∀ ws, ev ≠ Planned ws) ∧
    (false = true → selected = disk sample_world) ∧
    (false = false →
     selected = filter (λ p : path, length p = 1) (disk sample_world) ∧
     ∀ p : path, p ∈ selected ↔ p ∈ disk sample_world ∧ length p = 1).
Proof.
  apply (main_selects_works sample_find_works sample_calculate_path_renames
           sample_execute sample_remove_empty_dirs (sample_args false false)
           sample_world (disk sample_world)).
  reflexivity.
Defined.

Example main_top_level_only :
  trace (sample_main (sample_args true false) sample_world).2 =
  [Found ["top"]; Planned [["RJ111111"]; ["locked"]; ["RJ222222"]]].
Proof. reflexivity. Qed.

Example main_all :
  trace (sample_main (sample_args true true) sample_world).2 =
  [Found ["top"];
   Planned [["RJ111111"]; ["locked"]; ["RJ222222"]; ["sub"; "RJ333333"]]].
Proof. reflexivity. Qed.

Lemma main_stops_at_failed_rename_witness :
  sample_main (sample_args false false) sample_world =
    (inl (OSError EACCES),
     {| disk := [["sorted"; "RJ111111"]; ["locked"]; ["RJ222222"]; ["sub"; "RJ333333"]];
        trace := [Found ["top"]; Planned [["RJ111111"]; ["locked"]; ["RJ222222"]];
                  Executed (["RJ111111"], ["sorted"; "RJ111111"]) ["top"];
                  Executed (["locked"], ["sorted"; "locked"]) ["top"]];
        stdout := [] |}).
Proof.
  apply (proj2 (main_stops_at_failed_rename sample_find_works
                  sample_calculate_path_renames sample_execute sample_remove_empty_dirs
                  (sample_args false false) sample_world (disk sample_world)
                  eq_refl eq_refl)
           [(["RJ111111"], ["sorted"; "RJ111111"])]
           (["locked"], ["sorted"; "locked"])
           [(["RJ222222"], ["sorted"; "RJ222222"])]
           [["sorted"; "RJ111111"]; ["locked"]; ["RJ222222"]; ["sub"; "RJ333333"]]
           (OSError EACCES)
           [["sorted"; "RJ111111"]; ["locked"]; ["RJ222222"]; ["sub"; "RJ333333"]]);
    reflexivity.
Defined.

(** C5, as the specification has it, fails: the second of three planned
    renames raises, and the command raises with it; the third rename is
    not executed and the empty directories are not removed. *)
Lemma main_does_not_continue_after_failure :
  let out := sample_main (sample_args false false) sample_world in
  sample_calculate_path_renames [["RJ111111"]; ["locked"]; ["RJ222222"]]
      (disk sample_world) =
    inr [(["RJ111111"], ["sorted"; "RJ111111"]); (["locked"], ["sorted"; "locked"]);
         (["RJ222222"], ["sorted"; "RJ222222"])] ∧
  out.1 = inl (OSError EACCES) ∧
  (Executed (["RJ222222"], ["sorted"; "RJ222222"]) ["top"] ∉ trace (out.2)) ∧
  (Cleaned ["top"] ∉ trace (out.2)) ∧
  (["RJ222222"] ∈ disk (out.2)).
Proof.
  cbv zeta. split_and!; [reflexivity|reflexivity| | |].
  - vm_compute trace. rewrite !not_elem_of_cons. split_and!; try done.
    apply not_elem_of_nil.
  - vm_compute trace. rewrite !not_elem_of_cons. split_and!; try done.
    apply not_elem_of_nil.
  - vm_compute disk. rewrite !elem_of_cons. auto.
Qed.

(** C6 on the sample disk: with [--dry-run] four renames are planned and
    no line is printed; no rename is executed, no directory is removed
    and the disk is as it was. *)
Theorem dry_run_prints_nothing :
  sample_calculate_path_renames (disk sample_world) (disk sample_world) =
    inr [(["RJ111111"], ["sorted"; "RJ111111"]); (["locked"], ["sorted"; "locked"]);
         (["RJ222222"], ["sorted"; "RJ222222"]);
         (["sub"; "RJ333333"], ["sorted"; "sub"; "RJ333333"])] ∧
  sample_main (sample_args true true) sample_world =
    (inr tt,
     {| disk := disk sample_world;
        trace := [Found ["top"]; Planned (disk sample_world)];
        stdout := [] |}).
Proof. split; reflexivity. Qed.

(** * More about the code *)

(** ** Sequences of calls of the cached fetcher *)

Section CachedFetcherSequences.

Context {V Env : Type}.
Implicit Types (st : State V Env) (d : gmap string V) (c : string)
  (l : list string).

(** One call invokes the wrapped fetcher on nothing, or on the
    identifier it was given. *)
Lemma call_fetched_step st c :
  fetched (__call__ c st).2 = fetched st ∨
  fetched (__call__ c st).2 = fetched st ++ [c].
Proof.
  unfold __call__, try_except, shelf_getitem.
  destruct (_shelf (self st)) as [[f d|]|] eqn:Hsh; simpl; auto.
  destruct (d !! c); simpl; auto.
  unfold bind, call_fetcher, shelf_setitem.
  destruct (_fetcher (self st) c (env st)) as [[e|v] env']; simpl; auto.
  rewrite Hsh. simpl. auto.
Qed.

(** One call on an open store leaves the dictionary as it is, or adds
    the value it returns under an identifier that was not there. *)
Lemma call_store_step st d c :
  store st = Some d →
  ∃ d', store (__call__ c st).2 = Some d' ∧
        (d' = d ∨
         d !! c = None ∧ ∃ v, d' = <[c := v]> d ∧ (__call__ c st).1 = inr v).
Proof.
  intros Hs. destruct (d !! c) as [w|] eqn:Hc.
  - rewrite (call_hit st d c w) by done. eauto.
  - rewrite (call_miss st d c) by done.
    apply store_open in Hs as [f Hs]. unfold call_fetcher.
    destruct (_fetcher (self st) c (env st)) as [[e|v] env']; simpl.
    + exists d. unfold store. simpl. rewrite Hs. auto.
    + exists (<[c := v]> d). unfold store. simpl. eauto 6.
Qed.

Lemma call_returns_stored st c v :
  (__call__ c st).1 = inr v →
  ∃ d, store (__call__ c st).2 = Some d ∧ d !! c = Some v.
Proof.
  unfold __call__, try_except, shelf_getitem, store.
  destruct (_shelf (self st)) as [[f d|]|] eqn:Hsh; simpl; [|done..].
  destruct (d !! c) as [w|] eqn:Hw; simpl.
  - intros [= ->]. exists d. by rewrite Hsh.
  - unfold bind, call_fetcher, shelf_setitem.
    destruct (_fetcher (self st) c (env st)) as [[e|w] env']; simpl; [done|].
    rewrite Hsh. simpl. intros [= ->]. exists (<[c := v]> d).
    by rewrite lookup_insert_eq.
Qed.

Lemma calls_subseteq l : ∀ st d,
  store st = Some d → ∃ d', store (calls l st).2 = Some d' ∧ d ⊆ d'.
Proof.
  induction l as [|c l IH]; intros st d Hs; simpl; [eauto|].
  destruct (call_store_step st d c Hs) as (d1 & Hs1 & Hd1).
  destruct (__call__ c st) as [r st1]; simpl in *.
  destruct (IH st1 d1 Hs1) as (d' & Hs' & Hsub).
  destruct (calls l st1) as [rs st2]; simpl in *.
  exists d'. split; [done|]. etrans; [|done].
  destruct Hd1 as [->|(Hnone & v & -> & _)]; [done|by apply insert_subseteq].
Qed.

(** The wrapped fetcher is invoked only on identifiers that were asked
    for, in the order in which they were asked for: what a sequence of
    calls adds to the invocations is a subsequence of the calls. *)
Theorem calls_fetch_only_what_is_asked l : ∀ st,
  ∃ extra, fetched (calls l st).2 = fetched st ++ extra ∧ extra `sublist_of` l.
Proof.
  induction l as [|c l IH]; intros st; simpl.
  - exists []. by rewrite app_nil_r.
  - pose proof (call_fetched_step st c) as Hstep.
    destruct (__call__ c st) as [r st1]; simpl in *.
    destruct (IH st1) as (extra & Hf & Hsub).
    destruct (calls l st1) as [rs st2]; simpl in *.
    destruct Hstep as [Heq|Heq]; rewrite Hf, Heq.
    + exists extra. split; [done|]. by apply sublist_cons.
    + exists (c :: extra). rewrite <- (assoc_L (++)). split; [done|].
      by apply sublist_skip.
Qed.

(** Calls never remove or replace an entry of the store, and every
    entry they add is under an identifier that was asked for. *)
Theorem calls_store_only_grows l : ∀ st d,
  store st = Some d →
  ∃ d', store (calls l st).2 = Some d' ∧ d ⊆ d' ∧
        ∀ k, is_Some (d' !! k) → is_Some (d !! k) ∨ k ∈ l.
Proof.
  induction l as [|c l IH]; intros st d Hs; simpl.
  - exists d. split_and!; auto.
  - destruct (calls_subseteq (c :: l) st d Hs) as (d' & Hs' & Hsub).
    exists d'. split_and!; [done..|]. simpl in Hs'.
    destruct (call_store_step st d c Hs) as (d1 & Hs1 & Hd1).
    destruct (__call__ c st) as [r st1]; simpl in *.
    destruct (IH st1 d1 Hs1) as (d2 & Hs2 & _ & Hkeys).
    destruct (calls l st1) as [rs st2]; simpl in *.
    assert (d2 = d') as -> by congruence.
    intros k Hk. destruct (Hkeys k Hk) as [Hin|Hin].
    + destruct Hd1 as [->|(_ & v & -> & _)]; [by left|].
      destruct (decide (c = k)) as [->|Hne].
      * right. apply elem_of_cons. by left.
      * left. by rewrite lookup_insert_ne in Hin.
    + right. apply elem_of_cons. by right.
Qed.

(** Whatever a call of the sequence returned for an identifier is what
    the store holds for it when the sequence is over. *)
Theorem calls_returned_values_are_stored l : ∀ st i c v,
  l !! i = Some c → (calls l st).1 !! i = Some (inr v) →
  ∃ d', store (calls l st).2 = Some d' ∧ d' !! c = Some v.
Proof.
  induction l as [|c0 l IH]; intros st i c v Hi Hr; [done|].
  simpl in *.
  pose proof (call_returns_stored st c0) as Hstored.
  destruct (__call__ c0 st) as [r st1]; simpl in *.
  pose proof (IH st1) as IH1. pose proof (calls_subseteq l st1) as Hgrow.
  destruct (calls l st1) as [rs st2]; simpl in *.
  destruct i as [|i]; simpl in *.
  - simplify_eq. destruct (Hstored v eq_refl) as (d1 & Hs1 & Hv).
    destruct (Hgrow d1 Hs1) as (d' & Hs' & Hsub).
    exists d'. split; [done|]. by eapply lookup_weaken.
  - by eapply IH1.
Qed.

(** A fetcher that was never opened, or that was closed, answers every
    call of a sequence with a [ValueError]; nothing is fetched and the
    state stays as it is. *)
Theorem calls_outside_lifecycle_never_fetch l : ∀ st,
  _shelf (self st) = None ∨ _shelf (self st) = Some ShelfClosed →
  (calls l st).2 = st ∧
  length (calls l st).1 = length l ∧
  ∀ r, r ∈ (calls l st).1 → ∃ msg, r = inl (ValueError msg).
Proof.
  induction l as [|c l IH]; intros st Hsh; simpl.
  - split_and!; [done..|]. by intros r ?%elem_of_nil.
  - assert (∃ msg, __call__ c st = (inl (ValueError msg), st)) as [msg Hcall].
    { unfold __call__, try_except, shelf_getitem.
      destruct Hsh as [-> | ->]; simpl; eauto. }
    rewrite Hcall. destruct (IH st Hsh) as (Hst & Hlen & Hall).
    destruct (calls l st) as [rs st2]; simpl in *.
    split_and!; [done|by rewrite Hlen|].
    intros r [->|Hr]%elem_of_cons; eauto.
Qed.

(** Closing a fetcher that is closed already succeeds and changes
    nothing, unlike closing one that was never opened. *)
Theorem close_twice st :
  is_Some (_shelf (self st)) →
  (close st).1 = inr tt ∧ close (close st).2 = (inr tt, (close st).2).
Proof.
  intros [sh Hs]. destruct (close_some st sh Hs) as (Hok & Hsh & _).
  split; [done|]. unfold close at 1. by rewrite Hsh.
Qed.


(** What the store holds when the fetcher is closed is what it holds
    when the fetcher is entered again: closing writes the dictionary
    to the file of the fetcher, and entering reads it back. *)
Theorem reopen_sees_closed_store st d :
  _shelf (self st) = Some (ShelfOpen (_path (self st)) d) →
  _path (self st) ≠ [] →
  walk (fs st) [] (parent (_path (self st))) = None →
  fs (close st).2 !! _path (self st) = Some (DbFile d) ∧
  (__enter__ (close st).2).1 = inr tt ∧
  store (__enter__ (close st).2).2 = Some d ∧
  fs (__enter__ (close st).2).2 = fs (close st).2.
Proof.
  intros Hsh Hne Hwalk.
  assert (close st =
          (inr tt, set_shelf (Some ShelfClosed)
                     (set_fs (<[_path (self st) := DbFile d]> (fs st)) st))) as Hclose.
  { unfold close. by rewrite Hsh. }
  rewrite Hclose. simpl.
  assert (walk (<[_path (self st) := DbFile d]> (fs st)) []
            (parent (_path (self st))) = None) as Hwalk'.
  { apply walk_None. intros q Hq.
    pose proof (proj1 (walk_None (fs st) (parent (_path (self st))) []) Hwalk q Hq)
      as Hdir.
    simpl in *. destruct q as [|x q]; [done|]. simpl in *.
    rewrite lookup_insert_ne; [done|].
    intros Heq. apply prefix_length in Hq. rewrite <- Heq in Hq.
    destruct (exists_last Hne) as (p' & y & Hp). rewrite Hp in Hq.
    unfold parent in Hq. rewrite removelast_last, length_app in Hq.
    simpl in Hq. lia. }
  split; [by rewrite lookup_insert_eq|].
  unfold __enter__, bind, shelve_open. simpl. rewrite Hwalk'.
  destruct (_path (self st)) as [|x p] eqn:Hp; [done|]. simpl.
  rewrite lookup_insert_eq. done.
Qed.

End CachedFetcherSequences.

Lemma calls_store_only_grows_witness :
  ∃ d', store (calls ["RJ123456"; "RJ000000"] sample_open).2 = Some d' ∧ ∅ ⊆ d' ∧
        ∀ k, is_Some (d' !! k) →
             is_Some ((∅ : gmap string (Work nat)) !! k) ∨ k ∈ ["RJ123456"; "RJ000000"].
Proof.
  apply (calls_store_only_grows ["RJ123456"; "RJ000000"] sample_open ∅). reflexivity.
Defined.

Lemma calls_returned_values_are_stored_witness :
  ∃ d', store (calls ["RJ000000"; "RJ999999"] sample_open).2 = Some d' ∧
        d' !! "RJ999999" =
          Some {| rjcode := "RJ999999"; name := PyStr "Upcoming Work";
                  maker := "Example Circle"; series := None |}.
Proof.
  apply (calls_returned_values_are_stored ["RJ000000"; "RJ999999"] sample_open 1);
    reflexivity.
Defined.

Lemma calls_outside_lifecycle_never_fetch_witness :
  (calls ["RJ123456"; "RJ123456"] sample_closed).2 = sample_closed ∧
  (calls ["RJ123456"; "RJ123456"] sample_new).2 = sample_new.
Proof.
  split.
  - apply (calls_outside_lifecycle_never_fetch ["RJ123456"; "RJ123456"] sample_closed).
    right. reflexivity.
  - apply (calls_outside_lifecycle_never_fetch ["RJ123456"; "RJ123456"] sample_new).
    left. reflexivity.
Defined.

Lemma close_twice_witness :
  close (close sample_open).2 = (inr tt, (close sample_open).2).
Proof. apply (close_twice sample_open). vm_compute. eauto. Defined.


Lemma reopen_sees_closed_store_witness :
  let st := (__call__ "RJ123456" sample_open).2 in
  store (__enter__ (close st).2).2 = Some (<["RJ123456" := example_work]> ∅).
Proof.
  apply (reopen_sees_closed_store (__call__ "RJ123456" sample_open).2
           (<["RJ123456" := example_work]> ∅)).
  - reflexivity.
  - discriminate.
  - reflexivity.
Defined.

(** ** URLs, parsing and the requests of a fetch *)

Lemma string_length_app (s t : string) :
  String.length (s +:+ t) = String.length s + String.length t.
Proof. induction s as [|a s IH]; simpl; [done|by rewrite IH]. Qed.

Lemma string_app_inj_r (t : string) : ∀ s1 s2 : string,
  s1 +:+ t = s2 +:+ t → s1 = s2.
Proof.
  induction s1 as [|a s1 IH]; intros [|b s2] Heq; simpl in *; [done|..].
  - apply (f_equal String.length) in Heq.
    rewrite ?string_length_app in Heq. simpl in Heq.
    rewrite ?string_length_app in Heq. lia.
  - apply (f_equal String.length) in Heq.
    rewrite ?string_length_app in Heq. simpl in Heq.
    rewrite ?string_length_app in Heq. lia.
  - injection Heq as -> Heq. f_equal. by apply IH.
Qed.

(** Two identifiers have two work URLs and two announce URLs, and no
    work URL is an announce URL. *)
Theorem urls_tell_identifiers_apart :
  (∀ a b, _get_work_url a = _get_work_url b → a = b) ∧
  (∀ a b, _get_announce_url a = _get_announce_url b → a = b) ∧
  (∀ a b, _get_work_url a ≠ _get_announce_url b).
Proof.
  unfold _get_work_url, _get_announce_url, _WORK_URL, _ANNOUNCE_URL, _ROOT.
  split_and!.
  - intros a b Heq. simpl in Heq. simplify_eq. by eapply string_app_inj_r.
  - intros a b Heq. simpl in Heq. simplify_eq. by eapply string_app_inj_r.
  - intros a b Heq. simpl in Heq. simplify_eq.
Qed.

Section ApiMore.

Context {Net Tag : Type} {bs4 : BS4 Tag}.
Variable urlopen : string -> Net -> (exn + HTTPResponse) * Net.
Implicit Types (st : NetState Net) (soup a : Tag).

(** Parsing asks nothing of the network: [fetch_work] leaves it as
    [_get_page] left it, whether the page parses or not. *)
Lemma fetch_work_state rjcode st :
  (fetch_work urlopen rjcode st).2 = (_get_page urlopen rjcode st).2.
Proof.
  unfold fetch_work, bind, lift.
  destruct (_get_page urlopen rjcode st) as [[e|page] st1]; [done|].
  cbv zeta.
  destruct (_get_name (BeautifulSoup page "lxml")) as [e|n]; [done|].
  destruct (_get_maker (BeautifulSoup page "lxml")) as [e|m]; [done|].
  by destruct (_get_series (BeautifulSoup page "lxml")) as [[]|s].
Qed.

Lemma get_page_requested rjcode st :
  ∃ extra,
    requested (_get_page urlopen rjcode st).2 =
      requested st ++ _get_work_url rjcode :: extra ∧
    (extra = [] ∨ extra = [_get_announce_url rjcode]).
Proof.
  unfold _get_page, bind, try_except, urllib_request_urlopen, lift.
  destruct (urlopen (_get_work_url rjcode) (net st)) as [[e|response] net1]; simpl.
  - destruct e as [| | | | | |code| |]; simpl; try (by exists (@nil string); auto).
    destruct (negb (code =? 404)%Z); simpl; [by exists (@nil string); auto|].
    exists [_get_announce_url rjcode].
    destruct (urlopen (_get_announce_url rjcode) net1) as [[e2|response2] net2];
      simpl; rewrite <- (assoc_L (++)); auto.
  - exists (@nil string). auto.
Qed.

Lemma fetch_work_identifier code st w :
  (fetch_work urlopen code st).1 = inr w → rjcode w = code.
Proof.
  unfold fetch_work, bind, lift.
  destruct (_get_page urlopen code st) as [[e|page] st1]; [done|].
  cbv zeta.
  destruct (_get_name (BeautifulSoup page "lxml")) as [e|n]; [done|].
  destruct (_get_maker (BeautifulSoup page "lxml")) as [e|m]; [done|].
  destruct (_get_series (BeautifulSoup page "lxml")) as [[]|s]; simpl;
    try done; by intros [= <-].
Qed.

(** A fetch makes one request or two: the work URL first, and the
    announce URL after it or nothing; parsing makes none. *)
Theorem fetch_work_requests code st :
  ∃ extra,
    requested (fetch_work urlopen code st).2 =
      requested st ++ _get_work_url code :: extra ∧
    (extra = [] ∨ extra = [_get_announce_url code]).
Proof. rewrite fetch_work_state. apply get_page_requested. Qed.

(** [_get_series] returns a string or raises [ValueError]: the
    [AttributeError] of a missing tag never leaves it. *)
Theorem get_series_string_or_no_series soup :
  (∃ s, _get_series soup = inr s) ∨ _get_series soup = inl (ValueError "no series").
Proof.
  rewrite get_series_on_page. destruct (series_on_page soup); eauto.
Qed.

(** When the name anchor is found, the name is read off its last child
    alone: a last child that is a string gives that string stripped,
    whatever stands before it. *)
Theorem get_name_reads_last_child soup a before s :
  name_on_page soup = Some a →
  contents a = before ++ [NavigableString s] →
  _get_name soup = inr (PyStr (strip s)).
Proof.
  intros Ha Hc. pose proof (get_name_on_page soup) as Hn.
  rewrite Ha in Hn. rewrite Hn. unfold getitem_last.
  by rewrite Hc, last_snoc.
Qed.

(** When the name anchor is found but has no children, [_get_name]
    raises [IndexError]; when its last child is a tag that has no tag
    [strip] below it, [_get_name] raises [TypeError]. *)
Theorem get_name_fails_on_anchor soup a :
  name_on_page soup = Some a →
  (contents a = [] → _get_name soup = inl (IndexError "list index out of range")) ∧
  (∀ before t,
     contents a = before ++ [Element t] → find_name t "strip" = None →
     _get_name soup = inl (TypeError "'NoneType' object is not callable")).
Proof.
  intros Ha. pose proof (get_name_on_page soup) as Hn.
  rewrite Ha in Hn. rewrite Hn. unfold getitem_last. split.
  - by intros ->.
  - intros before t Hc Hstrip. rewrite Hc, last_snoc. simpl. by rewrite Hstrip.
Qed.

(** An anchor that holds no single string does not make the maker or
    the series fail: its string is [None], and the field is the text
    of [None]. *)
Theorem anchor_without_string_gives_None soup a :
  tag_string a = None →
  (maker_on_page soup = Some a → _get_maker soup = inr "None") ∧
  (series_on_page soup = Some a → _get_series soup = inr "None").
Proof.
  intros Hs. split; intros Ha.
  - pose proof (get_maker_on_page soup) as Hm. rewrite Ha in Hm.
    by rewrite Hm, Hs.
  - by rewrite get_series_on_page, Ha, Hs.
Qed.

Implicit Types (cs : State (Work Tag) (NetState Net)) (d : gmap string (Work Tag)).

Lemma call_keeps_fetcher {V Env} (s : State V Env) c :
  _fetcher (self (__call__ c s).2) = _fetcher (self s).
Proof.
  unfold __call__, try_except, shelf_getitem.
  destruct (_shelf (self s)) as [[f d|]|] eqn:Hsh; simpl; try done.
  destruct (d !! c); simpl; [done|].
  unfold bind, call_fetcher, shelf_setitem.
  destruct (_fetcher (self s) c (env s)) as [[e|v] env']; simpl; [done|].
  by rewrite Hsh.
Qed.

(** On a fetcher that wraps [fetch_work], a store in which every
    record is kept under its own identifier stays so through any
    sequence of calls. *)
Theorem cache_keys_match_records l : ∀ cs d,
  _fetcher (self cs) = fetch_work urlopen →
  store cs = Some d →
  (∀ k w, d !! k = Some w → rjcode w = k) →
  ∃ d', store (calls l cs).2 = Some d' ∧ ∀ k w, d' !! k = Some w → rjcode w = k.
Proof.
  induction l as [|c l IH]; intros cs d Hf Hs Hkeys; simpl; [eauto|].
  pose proof (call_keeps_fetcher cs c) as Hf1. rewrite Hf in Hf1.
  destruct (call_store_step cs d c Hs) as (d1 & Hs1 & Hd1).
  assert (∀ k w, d1 !! k = Some w → rjcode w = k) as Hkeys1.
  { destruct Hd1 as [->|(Hnone & v & -> & Hv)]; [done|].
    intros k w. destruct (decide (c = k)) as [->|Hne].
    - rewrite lookup_insert_eq. intros [= <-].
      rewrite (call_miss cs d k) in Hv by done.
      unfold call_fetcher in Hv. rewrite Hf in Hv.
      destruct (fetch_work urlopen k (env cs)) as [[e|v'] env'] eqn:Hfetch;
        simpl in Hv; [done|]. simplify_eq.
      apply (fetch_work_identifier k (env cs)). by rewrite Hfetch.
    - rewrite lookup_insert_ne by done. apply Hkeys. }
  destruct (__call__ c cs) as [r cs1]; simpl in *.
  destruct (IH cs1 d1 Hf1 Hs1 Hkeys1) as (d' & Hs' & Hkeys').
  destruct (calls l cs1) as [rs cs2]; simpl in *. eauto.
Qed.

(** On a fetcher that wraps [fetch_work], a call for a stored
    identifier leaves the network alone, and a call for any other
    makes the one or two requests of a fetch. *)
Theorem cached_call_requests cs d c :
  _fetcher (self cs) = fetch_work urlopen →
  store cs = Some d →
  match d !! c with
  | Some _ => env (__call__ c cs).2 = env cs
  | None =>
      ∃ extra,
        requested (env (__call__ c cs).2) =
          requested (env cs) ++ _get_work_url c :: extra ∧
        (extra = [] ∨ extra = [_get_announce_url c])
  end.
Proof.
  intros Hf Hs. destruct (d !! c) as [w|] eqn:Hc.
  - by rewrite (call_hit cs d c w).
  - rewrite (call_miss cs d c) by done. unfold call_fetcher. rewrite Hf.
    pose proof (get_page_requested c (env cs)) as Hreq.
    rewrite <- fetch_work_state in Hreq.
    destruct (fetch_work urlopen c (env cs)) as [[e|v] env']; simpl in *; done.
Qed.

End ApiMore.

Import Odd.

Lemma get_name_reads_last_child_witness :
  _get_name (bs4 := sample_bs4) 0 = inr (PyStr "Example Work").
Proof.
  apply (get_name_reads_last_child (bs4 := sample_bs4) 0 2 [Element 10]
           "  Example Work "); reflexivity.
Defined.

Lemma get_name_fails_on_anchor_witness :
  _get_name (bs4 := odd_bs4) 0 = inl (IndexError "list index out of range") ∧
  _get_name (bs4 := odd_bs4) 10 = inl (TypeError "'NoneType' object is not callable").
Proof.
  split.
  - apply (proj1 (get_name_fails_on_anchor (bs4 := odd_bs4) 0 2 eq_refl)).
    reflexivity.
  - apply (proj2 (get_name_fails_on_anchor (bs4 := odd_bs4) 10 12 eq_refl)
             [NavigableString "Title"] 20); reflexivity.
Defined.

Lemma anchor_without_string_gives_None_witness :
  _get_maker (bs4 := odd_bs4) 10 = inr "None" ∧
  _get_series (bs4 := odd_bs4) 10 = inr "None".
Proof.
  split.
  - apply (proj1 (anchor_without_string_gives_None (bs4 := odd_bs4) 10 15 eq_refl)).
    reflexivity.
  - apply (proj2 (anchor_without_string_gives_None (bs4 := odd_bs4) 10 19 eq_refl)).
    reflexivity.
Defined.

Lemma cache_keys_match_records_witness :
  ∃ d', store (calls ["RJ123456"; "RJ999999"; "RJ000000"] sample_open).2 = Some d' ∧
        ∀ k w, d' !! k = Some w → rjcode w = k.
Proof.
  apply (cache_keys_match_records (bs4 := sample_bs4) sample_urlopen
           ["RJ123456"; "RJ999999"; "RJ000000"] sample_open ∅).
  - reflexivity.
  - reflexivity.
  - intros k w Hk. rewrite lookup_empty in Hk. discriminate.
Defined.

Lemma cached_call_requests_witness :
  ∃ extra,
    requested (env (__call__ "RJ999999" sample_open).2) =
      requested (env sample_open) ++ _get_work_url "RJ999999" :: extra ∧
    (extra = [] ∨ extra = [_get_announce_url "RJ999999"]).
Proof.
  exact (cached_call_requests (bs4 := sample_bs4) sample_urlopen sample_open ∅
           "RJ999999" eq_refl eq_refl).
Defined.

(** An odd page is fetched all the same: the name raises, and the
    network was asked once. *)
Example fetch_odd_page :
  fetch_work (bs4 := odd_bs4) odd_urlopen "RJ123456" sample_net =
  (inl (TypeError "'NoneType' object is not callable"),
   {| net := 1; requested := [_get_work_url "RJ123456"] |}).
Proof. reflexivity. Qed.

(** ** More about the cache directory *)

Section MkdirMore.

Context {V : Type}.
Implicit Types (fs : gmap path (node V)) (p q : path).

Lemma os_mkdir_subseteq fs p : fs ⊆ (os_mkdir p fs).2.
Proof.
  unfold os_mkdir. destruct (walk fs [] (parent p)); simpl; [done|].
  destruct (lookup_node fs p) eqn:Hp; simpl; [done|].
  apply insert_subseteq. by destruct p.
Qed.

Lemma mkdir_exists_state fs p b e : (mkdir_exists p b e fs).2 = fs.
Proof. unfold mkdir_exists. by destruct (b && is_dir fs p). Qed.

Lemma mkdir_plain_subseteq fs p b : fs ⊆ (mkdir_plain p b fs).2.
Proof.
  unfold mkdir_plain, try_except. pose proof (os_mkdir_subseteq fs p) as Hsub.
  destruct (os_mkdir p fs) as [[e|[]] fs1]; simpl in *; [|done].
  destruct e as [| | | | |[]| | |]; simpl; rewrite ?mkdir_exists_state; done.
Qed.

(** [mkdir] never removes or replaces what is there, whether it
    returns or raises. *)
Lemma mkdir_parents_rev_subseteq rparts : ∀ b fs,
  fs ⊆ (mkdir_parents_rev rparts b fs).2.
Proof.
  induction rparts as [|c rp IH]; intros b fs; simpl; unfold try_except.
  - pose proof (os_mkdir_subseteq fs []) as Hsub.
    destruct (os_mkdir [] fs) as [[e|[]] fs1]; simpl in *; [|done].
    destruct e as [| | | | |[]| | |]; simpl; rewrite ?mkdir_exists_state; done.
  - pose proof (os_mkdir_subseteq fs (rev rp ++ [c])) as Hsub.
    destruct (os_mkdir (rev rp ++ [c]) fs) as [[e|[]] fs1]; simpl in *; [|done].
    destruct e as [| | | | |[]| | |]; simpl; rewrite ?mkdir_exists_state; try done.
    unfold bind. pose proof (IH true fs1) as Hsub1.
    destruct (mkdir_parents_rev rp true fs1) as [[e|[]] fs2]; simpl in *.
    + by etrans.
    + etrans; [done|]. etrans; [done|]. apply mkdir_plain_subseteq.
Qed.

(** Where the directories are there already, [mkdir] with [parents]
    and [exist_ok] returns and changes nothing. *)
Lemma mkdir_parents_rev_there rparts fs :
  dirs_to fs (rev rparts) → mkdir_parents_rev rparts true fs = (inr tt, fs).
Proof.
  intros Hd. destruct rparts as [|c rp]; [done|]. simpl in *.
  unfold try_except.
  rewrite (os_mkdir_exists fs (rev rp) c Dir).
  - simpl. unfold mkdir_exists, is_dir. by rewrite (Hd (rev rp ++ [c])).
  - intros q Hq. apply Hd. by apply prefix_app_r.
  - by apply Hd.
Qed.

End MkdirMore.

Section GetFetcherMore.

Context {Net Tag : Type} {bs4 : BS4 Tag}.
Variable urlopen : string -> Net -> (exn + HTTPResponse) * Net.
Variable home : path.
Implicit Types (fs : gmap path (node (Work Tag))).

(** [get_fetcher] never removes or replaces anything in the file
    system, whether it returns or raises. *)
Theorem get_fetcher_never_overwrites fs :
  fs ⊆ (get_fetcher urlopen home fs).2.
Proof.
  unfold get_fetcher, bind, mkdir_parents.
  pose proof (mkdir_parents_rev_subseteq (rev (parent (_CACHE home))) true fs) as Hsub.
  by destruct (mkdir_parents_rev (rev (parent (_CACHE home))) true fs) as [[e|[]] fs1].
Qed.

(** A second [get_fetcher] finds the directories that the first one
    made: it returns the same fetcher and changes nothing. *)
Theorem get_fetcher_twice fs :
  clear_to fs (home ++ [".cache"]) →
  ∃ fetcher fs',
    get_fetcher urlopen home fs = (inr fetcher, fs') ∧
    get_fetcher urlopen home fs' = (inr fetcher, fs').
Proof.
  intros Hclear.
  destruct (mkdir_parents_made fs (home ++ [".cache"]) Hclear)
    as (fs' & Hrun & Hdirs & _).
  exists (__init__ (_CACHE home) (fetch_work urlopen)), fs'.
  unfold get_fetcher, bind. rewrite parent_CACHE, Hrun.
  split; [done|]. unfold mkdir_parents.
  rewrite mkdir_parents_rev_there; [done|]. by rewrite rev_involutive.
Qed.

(** A file named [.cache] in the home directory makes [get_fetcher]
    raise [FileExistsError]; no fetcher is returned and nothing is
    changed. *)
Theorem get_fetcher_file_in_the_way fs n :
  dirs_to fs home →
  lookup_node fs (home ++ [".cache"]) = Some n → n ≠ Dir →
  get_fetcher urlopen home fs = (inl (OSError EEXIST), fs).
Proof.
  intros Hd Hn Hfile.
  unfold get_fetcher, bind, mkdir_parents. rewrite parent_CACHE.
  rewrite rev_app_distr. simpl. unfold try_except.
  rewrite rev_involutive, (os_mkdir_exists fs home ".cache" n) by done.
  simpl. unfold mkdir_exists, is_dir. rewrite Hn. by destruct n.
Qed.

End GetFetcherMore.

Lemma get_fetcher_twice_witness :
  ∃ fetcher fs',
    get_fetcher (bs4 := sample_bs4) sample_urlopen sample_home sample_fs =
      (inr fetcher, fs') ∧
    get_fetcher (bs4 := sample_bs4) sample_urlopen sample_home fs' = (inr fetcher, fs').
Proof.
  apply (get_fetcher_twice (bs4 := sample_bs4) sample_urlopen sample_home sample_fs).
  apply clear_tob_true. vm_compute. reflexivity.
Defined.

Lemma get_fetcher_file_in_the_way_witness :
  get_fetcher (bs4 := sample_bs4) sample_urlopen sample_home
    (<[ ["home"; "user"; ".cache"] := OtherFile ]> sample_fs) =
  (inl (OSError EEXIST), <[ ["home"; "user"; ".cache"] := OtherFile ]> sample_fs).
Proof.
  apply (get_fetcher_file_in_the_way (bs4 := sample_bs4) sample_urlopen sample_home
           (<[ ["home"; "user"; ".cache"] := OtherFile ]> sample_fs) OtherFile).
  - intros q Hq. apply prefix_length in Hq as Hlen.
    destruct q as [|a [|b [|c q]]]; simpl in Hlen; [done| | |lia].
    + apply prefix_cons_inv_1 in Hq as ->. reflexivity.
    + pose proof (prefix_cons_inv_1 _ _ _ _ Hq) as ->.
      apply prefix_cons_inv_2, prefix_cons_inv_1 in Hq as ->. reflexivity.
  - reflexivity.
  - discriminate.
Defined.

(** ** More about the command *)

Section DlorgMore.

Context {Disk PathRename : Type}.
Variable find_works : path -> Disk -> exn + list path.
Variable calculate_path_renames : list path -> Disk -> exn + list PathRename.
Variable execute : PathRename -> path -> M Disk unit.
Variable remove_empty_dirs : path -> M Disk unit.

Implicit Types (w : World Disk PathRename) (renames : list PathRename).

(** The loop executes the renames of a prefix of the plan, in order. *)
Lemma loop_trace top renames : ∀ w,
  ∃ n, trace (for_each renames (r_execute execute top) w).2 =
         trace w ++ ((λ r, Executed r top) <$> take n renames).
Proof.
  unfold r_execute. induction renames as [|r renames IH]; intros w; simpl.
  - exists 0. by rewrite app_nil_r.
  - unfold bind at 1, changing at 1.
    destruct (execute r top (disk w)) as [[e|[]] d1]; simpl.
    + by exists 1.
    + destruct (IH {| disk := d1; trace := trace w ++ [Executed r top];
                      stdout := stdout w |}) as (n & Ht).
      exists (S n). simpl in *. by rewrite Ht, <- (assoc_L (++)).
Qed.

(** The command executes no rename that is not in the plan, none on
    another directory than the one it was given, and none at all with
    [--dry-run]. *)
Theorem main_executes_only_planned args w works renames :
  find_works (top_dir args) (disk w) = inr works →
  calculate_path_renames (if all args then works else top_level works) (disk w) =
    inr renames →
  ∃ rest,
    trace (main find_works calculate_path_renames execute remove_empty_dirs args w).2 =
      trace w ++ rest ∧
    ∀ r top, Executed r top ∈ rest →
             r ∈ renames ∧ top = top_dir args ∧ dry_run args = false.
Proof.
  intros Hfound Hplan.
  assert ((if negb (all args) then top_level works else works) =
          (if all args then works else top_level works)) as Hsel
    by (by destruct (all args)).
  unfold main, bind at 1 2, org_find_works, org_calculate_path_renames, reading.
  simpl. rewrite Hfound, Hsel, Hplan.
  set (selected := if all args then works else top_level works).
  destruct (dry_run args) eqn:Hdry.
  - exists [Found (top_dir args); Planned selected]. unfold ret, log. simpl.
    split; [by rewrite <- (assoc_L (++))|].
    intros r top Hin. rewrite !elem_of_cons, elem_of_nil in Hin.
    by destruct Hin as [?|[?|?]].
  - set (w1 := log _ (log _ w)).
    destruct (loop_trace (top_dir args) renames w1) as (n & Ht).
    assert (∀ r top,
              Executed r top ∈ ((λ r, Executed r (top_dir args)) <$> take n renames) →
              r ∈ renames ∧ top = top_dir args) as Hexec.
    { intros r top (r' & [= -> ->] & Hr')%list_elem_of_fmap.
      split; [|done]. by apply (subseteq_take n renames). }
    unfold bind, org_remove_empty_dirs.
    destruct (for_each renames (r_execute execute (top_dir args)) w1)
      as [[e|[]] w2] eqn:Hrun; simpl in *.
    + eexists. split; [rewrite Ht; subst w1; unfold log; simpl;
                       by rewrite <- !(assoc_L (++))|].
      simpl. intros r top Hin.
      rewrite !elem_of_cons in Hin. destruct Hin as [?|[?|Hin]]; [done..|].
      destruct (Hexec r top Hin). done.
    + unfold changing.
      destruct (remove_empty_dirs (top_dir args) (disk w2)) as [res d3]; simpl.
      eexists. split; [rewrite Ht; subst w1; unfold log; simpl;
                       by rewrite <- !(assoc_L (++))|].
      simpl. intros r top Hin.
      rewrite !elem_of_cons, elem_of_app in Hin.
      destruct Hin as [?|[?|[Hin|Hin]]]; [done..| |].
      * destruct (Hexec r top Hin). done.
      * rewrite elem_of_cons, elem_of_nil in Hin. by destruct Hin.
Qed.

(** Without [--dry-run], an empty plan still has the empty directories
    removed: the command executes no rename and its outcome is the
    outcome of the cleanup. *)
Theorem main_empty_plan_still_cleans args w works :
  dry_run args = false →
  find_works (top_dir args) (disk w) = inr works →
  calculate_path_renames (if all args then works else top_level works) (disk w) =
    inr [] →
  main find_works calculate_path_renames execute remove_empty_dirs args w =
    ((remove_empty_dirs (top_dir args) (disk w)).1,
     {| disk := (remove_empty_dirs (top_dir args) (disk w)).2;
        trace := trace w ++ [Found (top_dir args);
                             Planned (if all args then works else top_level works);
                             Cleaned (top_dir args)];
        stdout := stdout w |}).
Proof.
  intros Hdry Hfound Hplan.
  assert ((if negb (all args) then top_level works else works) =
          (if all args then works else top_level works)) as Hsel
    by (by destruct (all args)).
  unfold main, bind, org_find_works, org_calculate_path_renames,
    org_remove_empty_dirs, reading, changing.
  simpl. rewrite Hfound, Hsel, Hplan, Hdry. simpl.
  destruct (remove_empty_dirs (top_dir args) (disk w)) as [res d]; simpl.
  by rewrite <- !(assoc_L (++)).
Qed.

End DlorgMore.

Lemma main_dry_run_witness :
  sample_main (sample_args true false) sample_world =
    (inr tt,
     {| disk := disk sample_world;
        trace := [Found ["top"]; Planned [["RJ111111"]; ["locked"]; ["RJ222222"]]];
        stdout := [] |}).
Proof.
  apply (main_dry_run sample_find_works sample_calculate_path_renames sample_execute
           sample_remove_empty_dirs (sample_args true false) sample_world
           (disk sample_world)
           [(["RJ111111"], ["sorted"; "RJ111111"]); (["locked"], ["sorted"; "locked"]);
            (["RJ222222"], ["sorted"; "RJ222222"])]); reflexivity.
Defined.

Lemma main_executes_only_planned_witness :
  ∃ rest,
    trace (sample_main (sample_args false true) sample_world).2 =
      trace sample_world ++ rest ∧
    ∀ r top, Executed r top ∈ rest →
             r ∈ ((λ p : path, (p, "sorted" :: p)) <$> disk sample_world) ∧
             top = ["top"] ∧ false = false.
Proof.
  apply (main_executes_only_planned sample_find_works sample_calculate_path_renames
           sample_execute sample_remove_empty_dirs (sample_args false true)
           sample_world (disk sample_world)
           ((λ p : path, (p, "sorted" :: p)) <$> disk sample_world)); reflexivity.
Defined.

Lemma main_empty_plan_still_cleans_witness :
  sample_main (sample_args false false)
    {| disk := [["sub"; "RJ333333"]]; trace := []; stdout := [] |} =
  (inr tt,
   {| disk := [["sub"; "RJ333333"]];
      trace := [Found ["top"]; Planned []; Cleaned ["top"]];
      stdout := [] |}).
Proof.
  apply (main_empty_plan_still_cleans sample_find_works sample_calculate_path_renames
           sample_execute sample_remove_empty_dirs (sample_args false false)
           {| disk := [["sub"; "RJ333333"]]; trace := []; stdout := [] |}
           [["sub"; "RJ333333"]]); reflexivity.
Defined.
